(** * A limit order book with price-time priority matching

    Shallow embedding of [order_book.py]: the [OrderBook] class with its two
    price-indexed dictionaries, the intake routine [process_order], the
    matching routine [process_match] and the [Order] and [Trade] records.

    Modelling choices.
    - Prices are dictionary keys that the code only compares ([<], [<=],
      [max], [min], [sorted]); they are modelled as exact numbers in [Z]
      (a finite price in ticks, of any sign).  Quantities are Python
      integers, modelled in [Z] (zero and negative values included, since
      the code accepts them).
    - [defaultdict(list)] is a [gmap Z (list Order.t)]: a missing key reads as
      the empty list.  The code never depends on the insertion order of the
      keys (it takes [max], [min] or [sorted] of them).
    - Python exceptions are the [Raise] results of a small error monad; the
      only statement of the two routines that can raise is [levels.pop].
    - [get_timestamp()] reads the clock: the value read is an argument of
      [process_order].
    - The [trades] queue is the list of trades put so far, oldest first.
    - Every call receives an [Order] object of its own: the book is the only
      holder of a resting order, so the in-place updates of the matching
      loop are updates of the lists of the index. *)

From Stdlib Require Import ZArith Lia.
From stdpp Require Import gmap list sorting strings.

Local Open Scope Z_scope.

(** ** Exceptions and the error monad *)

Inductive exn :=
| KeyError (k : Z).

Inductive result (A : Type) :=
| Ok (a : A)
| Raise (e : exn).
Arguments Ok {A} a.
Arguments Raise {A} e.

(** [result] is a monad; [x ← r; k] is stdpp's notation for its bind. *)
Global Instance result_bind : MBind result := λ A B f r,
  match r with
  | Ok a => f a
  | Raise e => Raise e
  end.

(** ** Data model *)

(** [class Type(enum.Enum)]. *)
Inductive Type_ :=
| BUY
| SELL.

Global Instance Type_eq_dec : EqDecision Type_.
Proof. solve_decision. Defined.

Module Order.
Record t := mk {
  type : Type_;
  price : Z;
  quantity : Z;
  timestamp : option Z;
  order_id : option Z;
  underlying : option string;
  instrument : option string;
  product : option string;
  status : option string
}.

(** [o.quantity = q] *)
Definition set_quantity (o : t) (q : Z) : t :=
  mk (type o) (price o) q (timestamp o) (order_id o)
     (underlying o) (instrument o) (product o) (status o).

(** [o.timestamp = ts] *)
Definition set_timestamp (o : t) (ts : Z) : t :=
  mk (type o) (price o) (quantity o) (Some ts) (order_id o)
     (underlying o) (instrument o) (product o) (status o).

(** [o.order_id = i] *)
Definition set_order_id (o : t) (i : Z) : t :=
  mk (type o) (price o) (quantity o) (timestamp o) (Some i)
     (underlying o) (instrument o) (product o) (status o).
End Order.

Module Trade.
Record t := mk {
  type : Type_;
  price : Z;
  quantity : Z;
  incoming_order_id : option Z;
  book_order_id : option Z
}.
End Trade.

(** One side of the book: [defaultdict(list)] from price to the orders
    resting at that price, oldest first. *)
Abbreviation levels_t := (gmap Z (list Order.t)).

Module OrderBook.
(** The fields that [process_order] and [process_match] read or write.
    ([bid_prices], [bid_quantity], [offer_prices], [offer_quantity] belong
    to [book_summary], [unprocessed_orders] to the driver.) *)
Record t := mk {
  bids : levels_t;
  offers : levels_t;
  trades : list Trade.t;
  order_id : Z
}.

(** [OrderBook.__init__] *)
Definition init : t := mk ∅ ∅ [] 0.
End OrderBook.

(** ** Dictionary and list primitives *)

(** [levels.keys()], in some order. *)
Definition keys (m : levels_t) : list Z := (map_to_list m).*1.

(** [levels[k]] on a [defaultdict(list)]: a missing key is created with the
    empty list. *)
Definition getitem (m : levels_t) (k : Z) : list Order.t * levels_t :=
  match m !! k with
  | Some l => (l, m)
  | None => ([], <[k := []]> m)
  end.

(** [levels[k].append(o)] *)
Definition append_order (m : levels_t) (k : Z) (o : Order.t) : levels_t :=
  let '(l, m') := getitem m k in <[k := l ++ [o]]> m'.

(** [levels.pop(k)], which raises [KeyError] on a missing key. *)
Definition pop (k : Z) (m : levels_t) : result levels_t :=
  match m !! k with
  | Some _ => Ok (delete k m)
  | None => Raise (KeyError k)
  end.

(** [bool(levels)]: a dictionary is true when it has a key. *)
Definition truthy (m : levels_t) : bool := negb (bool_decide (m = ∅)).

(** [sorted(ks, reverse=r)] *)
Definition sorted (ks : list Z) (reverse : bool) : list Z :=
  if reverse then merge_sort (flip Z.le) ks else merge_sort Z.le ks.

(** [max(ks)] and [min(ks)] of a non-empty list. *)
Definition max_of (k : Z) (ks : list Z) : Z := foldl Z.max k ks.
Definition min_of (k : Z) (ks : list Z) : Z := foldl Z.min k ks.

(** A float that may be [float('inf')]. *)
Inductive ext :=
| Fin (p : Z)
| Inf.

(** [p >= e] *)
Definition geb_ext (p : Z) (e : ext) : bool :=
  match e with
  | Fin m => m <=? p
  | Inf => false
  end.

(** [p < e] *)
Definition lt_ext (p : Z) (e : ext) : Prop :=
  match e with
  | Fin m => p < m
  | Inf => True
  end.

(** ** The order book *)

(** [OrderBook.new_order_id] *)
Definition new_order_id (ob : OrderBook.t) : OrderBook.t * Z :=
  let i := OrderBook.order_id ob + 1 in
  (OrderBook.mk (OrderBook.bids ob) (OrderBook.offers ob) (OrderBook.trades ob) i, i).

(** [OrderBook.max_bid] *)
Definition max_bid (ob : OrderBook.t) : Z :=
  match keys (OrderBook.bids ob) with
  | k :: ks => max_of k ks
  | [] => 0
  end.

(** [OrderBook.min_offer] *)
Definition min_offer (ob : OrderBook.t) : ext :=
  match keys (OrderBook.offers ob) with
  | k :: ks => Fin (min_of k ks)
  | [] => Inf
  end.

(** [OrderBook.execute_match] *)
Definition execute_match (incoming_order book_order : Order.t) : Trade.t :=
  let trade_quantity := Z.min (Order.quantity incoming_order) (Order.quantity book_order) in
  Trade.mk (Order.type incoming_order) (Order.price book_order) trade_quantity
           (Order.order_id incoming_order) (Order.order_id book_order).

(** The nested function [price_doesnt_match] of [process_match]. *)
Definition price_doesnt_match (incoming_order : Order.t) (book_price : Z) : bool :=
  match Order.type incoming_order with
  | BUY => Order.price incoming_order <? book_price
  | SELL => book_price <? Order.price incoming_order
  end.

(** The body of the inner loop of [process_match]: the trade, the incoming
    order and the book order after the two quantity updates. *)
Definition match_step (incoming_order book_order : Order.t)
  : Trade.t * Order.t * Order.t :=
  let trade := execute_match incoming_order book_order in
  let incoming_order' :=
    Order.set_quantity incoming_order
      (Z.max 0 (Order.quantity incoming_order - Trade.quantity trade)) in
  let book_order' :=
    Order.set_quantity book_order
      (Z.max 0 (Order.quantity book_order - Trade.quantity trade)) in
  (trade, incoming_order', book_order').

(** The inner loop of [process_match], over the orders of one level: the
    incoming order after the loop, the orders of the level after the loop
    (the loop updates their quantities in place) and the trades put. *)
Fixpoint match_orders (incoming_order : Order.t) (orders_at_level : list Order.t)
  : Order.t * list Order.t * list Trade.t :=
  match orders_at_level with
  | [] => (incoming_order, [], [])
  | book_order :: rest =>
      if Order.quantity incoming_order =? 0 then (incoming_order, orders_at_level, [])
      else
        let '(trade, incoming_order', book_order') := match_step incoming_order book_order in
        let '(incoming_order'', rest', trs) := match_orders incoming_order' rest in
        (incoming_order'', book_order' :: rest', trade :: trs)
  end.

(** [[o for o in orders_at_level if o.quantity > 0]] *)
Definition compact (orders_at_level : list Order.t) : list Order.t :=
  filter (λ o, 0 < Order.quantity o) orders_at_level.

(** The outer loop of [process_match], over the sorted prices. *)
Fixpoint match_levels (incoming_order : Order.t) (levels : levels_t) (prices : list Z)
  : result (Order.t * levels_t * list Trade.t) :=
  match prices with
  | [] => Ok (incoming_order, levels, [])
  | price :: prices' =>
      if (Order.quantity incoming_order =? 0) || price_doesnt_match incoming_order price
      then Ok (incoming_order, levels, [])
      else
        let '(orders_at_level, levels0) := getitem levels price in
        let '(incoming_order', orders', trs) := match_orders incoming_order orders_at_level in
        let levels1 := <[price := compact orders']> levels0 in
        levels2 ← (if bool_decide (length (getitem levels1 price).1 = 0%nat)
                    then pop price levels1 else Ok levels1) ;
        '(incoming_order'', levels3, trs') ← match_levels incoming_order' levels2 prices' ;
        Ok (incoming_order'', levels3, trs ++ trs')
  end.

(** [OrderBook.process_match]: the book after the call and the incoming
    order as the call leaves it. *)
Definition process_match (ob : OrderBook.t) (incoming_order : Order.t)
  : result (OrderBook.t * Order.t) :=
  let is_sell := bool_decide (Order.type incoming_order = SELL) in
  let levels := if is_sell then OrderBook.bids ob else OrderBook.offers ob in
  let prices := sorted (keys levels) is_sell in
  '(incoming_order', levels', trs) ← match_levels incoming_order levels prices ;
  let bids1 := if is_sell then levels' else OrderBook.bids ob in
  let offers1 := if is_sell then OrderBook.offers ob else levels' in
  let trades1 := OrderBook.trades ob ++ trs in
  if 0 <? Order.quantity incoming_order' then
    match Order.type incoming_order' with
    | BUY =>
        Ok (OrderBook.mk (append_order bids1 (Order.price incoming_order') incoming_order')
                         offers1 trades1 (OrderBook.order_id ob), incoming_order')
    | SELL =>
        Ok (OrderBook.mk bids1
                         (append_order offers1 (Order.price incoming_order') incoming_order')
                         trades1 (OrderBook.order_id ob), incoming_order')
    end
  else Ok (OrderBook.mk bids1 offers1 trades1 (OrderBook.order_id ob), incoming_order').

(** [OrderBook.process_order], with [now] the value of [get_timestamp()]. *)
Definition process_order (ob : OrderBook.t) (now : Z) (incoming_order : Order.t)
  : result (OrderBook.t * Order.t) :=
  let incoming_order := Order.set_timestamp incoming_order now in
  let '(ob, i) := new_order_id ob in
  let incoming_order := Order.set_order_id incoming_order i in
  match Order.type incoming_order with
  | BUY =>
      if geb_ext (Order.price incoming_order) (min_offer ob) && truthy (OrderBook.offers ob)
      then process_match ob incoming_order
      else Ok (OrderBook.mk
                 (append_order (OrderBook.bids ob) (Order.price incoming_order) incoming_order)
                 (OrderBook.offers ob) (OrderBook.trades ob) (OrderBook.order_id ob),
               incoming_order)
  | SELL =>
      if (Order.price incoming_order <=? max_bid ob) && truthy (OrderBook.bids ob)
      then process_match ob incoming_order
      else Ok (OrderBook.mk
                 (OrderBook.bids ob)
                 (append_order (OrderBook.offers ob) (Order.price incoming_order) incoming_order)
                 (OrderBook.trades ob) (OrderBook.order_id ob),
               incoming_order)
  end.

(** The driver loop [while not queue.empty(): ob.process_order(queue.get())]
    over the (clock reading, order) pairs of a submission queue. *)
Fixpoint process_orders (ob : OrderBook.t) (orders : list (Z * Order.t))
  : result OrderBook.t :=
  match orders with
  | [] => Ok ob
  | (now, o) :: orders' =>
      '(ob', _) ← process_order ob now o ;
      process_orders ob' orders'
  end.

(** An order as a submitter creates it. *)
Definition order (ty : Type_) (p q : Z) : Order.t :=
  Order.mk ty p q None None None None None None.

(** The quantity executed by a list of trades. *)
Definition traded (trs : list Trade.t) : Z :=
  foldr (λ t acc, Trade.quantity t + acc) 0 trs.

(** ** Dictionary lemmas *)

Lemma getitem_fst (m : levels_t) k : (getitem m k).1 = default [] (m !! k).
Proof. unfold getitem. by destruct (m !! k). Qed.

Lemma append_order_eq (m : levels_t) k o :
  append_order m k o = <[k := default [] (m !! k) ++ [o]]> m.
Proof.
  unfold append_order, getitem. destruct (m !! k); simpl; [done|].
  by rewrite insert_insert_eq.
Qed.

Lemma lookup_append_order (m : levels_t) k o q :
  append_order m k o !! q =
    if decide (k = q) then Some (default [] (m !! k) ++ [o]) else m !! q.
Proof. rewrite append_order_eq. apply lookup_insert. Qed.

Lemma append_order_ne (m : levels_t) k o : append_order m k o ≠ m.
Proof.
  intros E. assert (H := lookup_append_order m k o k).
  rewrite E, decide_True in H by done.
  destruct (m !! k) as [l|]; simpl in H; [|done].
  injection H as H. apply (f_equal length) in H.
  rewrite length_app in H. simpl in H. lia.
Qed.

Lemma truthy_true (m : levels_t) : truthy m = true ↔ m ≠ ∅.
Proof. unfold truthy. rewrite negb_true_iff, bool_decide_eq_false. done. Qed.

Lemma elem_of_keys (m : levels_t) q : q ∈ keys m ↔ is_Some (m !! q).
Proof.
  unfold keys. rewrite list_elem_of_fmap. split.
  - intros [[k l] [-> H]]. apply elem_of_map_to_list in H. by exists l.
  - intros [l H]. exists (q, l). split; [done|]. by apply elem_of_map_to_list.
Qed.

Lemma keys_nil (m : levels_t) : keys m = [] ↔ m = ∅.
Proof.
  unfold keys. split.
  - intros H. apply fmap_nil_inv in H. by apply map_to_list_empty_iff.
  - intros ->. by rewrite map_to_list_empty.
Qed.

Lemma NoDup_keys (m : levels_t) : NoDup (keys m).
Proof. apply NoDup_fst_map_to_list. Qed.

(** ** The inner loop *)

Lemma set_quantity_id o : Order.set_quantity o (Order.quantity o) = o.
Proof. by destruct o. Qed.

Lemma match_step_eq inc b :
  match_step inc b =
    (execute_match inc b,
     Order.set_quantity inc (Order.quantity inc - Z.min (Order.quantity inc) (Order.quantity b)),
     Order.set_quantity b (Order.quantity b - Z.min (Order.quantity inc) (Order.quantity b))).
Proof. unfold match_step. simpl. repeat f_equal; lia. Qed.

Lemma match_orders_nil inc : match_orders inc [] = (inc, [], []).
Proof. done. Qed.

Lemma match_orders_done inc l :
  Order.quantity inc = 0 → match_orders inc l = (inc, l, []).
Proof. intros H. destruct l; simpl; [done|]. by rewrite H. Qed.

Lemma match_orders_cons inc b rest :
  Order.quantity inc ≠ 0 →
  match_orders inc (b :: rest) =
    let '(t, inc1, b1) := match_step inc b in
    let '(inc2, rest', trs) := match_orders inc1 rest in
    (inc2, b1 :: rest', t :: trs).
Proof. intros H. simpl. apply Z.eqb_neq in H. by rewrite H. Qed.

(** What the inner loop does, for any quantities: the incoming order and
    the book orders change in their quantity only, quantity is conserved,
    and the trades are against the first orders of the level, in order. *)
Lemma match_orders_spec l : ∀ inc inc' l' trs,
  match_orders inc l = (inc', l', trs) →
  inc' = Order.set_quantity inc (Order.quantity inc') ∧
  Order.quantity inc = Order.quantity inc' + traded trs ∧
  Forall2 (λ b' b, b' = Order.set_quantity b (Order.quantity b')) l' l ∧
  Forall2 (λ t b, Trade.type t = Order.type inc ∧ Trade.price t = Order.price b ∧
                  Trade.incoming_order_id t = Order.order_id inc ∧
                  Trade.book_order_id t = Order.order_id b)
          trs (take (length trs) l).
Proof.
  induction l as [|b rest IH]; intros inc inc' l' trs H.
  - rewrite match_orders_nil in H. simplify_eq. simpl.
    rewrite set_quantity_id. repeat split; [lia|constructor..].
  - destruct (decide (Order.quantity inc = 0)) as [Hz|Hnz].
    + rewrite match_orders_done in H by done. simplify_eq. simpl.
      rewrite set_quantity_id. repeat split; [lia| |constructor].
      apply Forall2_same_length_lookup_2; [done|].
      intros i x y Hx Hy. simplify_eq. by rewrite set_quantity_id.
    + rewrite match_orders_cons, match_step_eq in H by done.
      destruct (match_orders _ rest) as [[inc2 rest'] trs'] eqn:E.
      simplify_eq. apply IH in E as (E1 & E2 & E3 & E4). simpl in *.
      repeat split.
      * rewrite E1 at 1. done.
      * lia.
      * constructor; [done|]. done.
      * constructor; [done|]. done.
Qed.

(** With a non-negative incoming quantity and positive resting quantities:
    every trade has a positive quantity, no quantity becomes negative, and
    an incoming order that is left with quantity has filled the whole
    level. *)
Lemma match_orders_positive l : ∀ inc inc' l' trs,
  match_orders inc l = (inc', l', trs) →
  0 ≤ Order.quantity inc →
  Forall (λ b, 0 < Order.quantity b) l →
  0 ≤ Order.quantity inc' ∧
  Forall (λ t, 0 < Trade.quantity t) trs ∧
  (0 < Order.quantity inc' → Forall (λ b, Order.quantity b = 0) l').
Proof.
  induction l as [|b rest IH]; intros inc inc' l' trs H Hq Hl.
  - rewrite match_orders_nil in H. simplify_eq. by repeat split.
  - destruct (decide (Order.quantity inc = 0)) as [Hz|Hnz].
    + rewrite match_orders_done in H by done. simplify_eq.
      repeat split; [done|constructor|lia].
    + rewrite match_orders_cons, match_step_eq in H by done.
      destruct (match_orders _ rest) as [[inc2 rest'] trs'] eqn:E.
      simplify_eq. inv Hl.
      destruct (IH _ _ _ _ E) as (E1 & E2 & E3); [simpl; lia|done|].
      repeat split; [done| |].
      * constructor; [simpl; lia|done].
      * intros Hpos. constructor; [|by auto].
        simpl. specialize (E3 Hpos).
        destruct (decide (Order.quantity inc ≤ Order.quantity b)) as [Hle|Hgt]; [|lia].
        exfalso.
        assert (Hz : Order.quantity inc - Z.min (Order.quantity inc) (Order.quantity b) = 0) by lia.
        rewrite Hz in E. clear -E Hpos.
        rewrite match_orders_done in E by done. simplify_eq. simpl in Hpos. lia.
Qed.

(** ** The outer loop *)

(** The dictionary after a level has been matched: [levels[price]] is set
    to the compacted list and popped when that list is empty. *)
Definition level_step (levels : levels_t) (price : Z) (orders' : list Order.t)
  : levels_t :=
  match compact orders' with
  | [] => delete price levels
  | _ :: _ => <[price := compact orders']> levels
  end.

Lemma match_levels_break inc levels p ps :
  Order.quantity inc = 0 ∨ price_doesnt_match inc p = true →
  match_levels inc levels (p :: ps) = Ok (inc, levels, []).
Proof.
  intros H. simpl.
  replace ((Order.quantity inc =? 0) || price_doesnt_match inc p) with true; [done|].
  symmetry. apply orb_true_iff. rewrite Z.eqb_eq. done.
Qed.

Lemma match_levels_cons inc levels p ps inc1 l1 trs :
  Order.quantity inc ≠ 0 →
  price_doesnt_match inc p = false →
  match_orders inc (default [] (levels !! p)) = (inc1, l1, trs) →
  match_levels inc levels (p :: ps) =
    '(inc2, levels3, trs') ← match_levels inc1 (level_step levels p l1) ps;
    Ok (inc2, levels3, trs ++ trs').
Proof.
  intros Hq Hp E. simpl. apply Z.eqb_neq in Hq. rewrite Hq, Hp. simpl.
  assert (G : (getitem levels p).1 = default [] (levels !! p)) by apply getitem_fst.
  destruct (getitem levels p) as [l levels0] eqn:Eg. simpl in G. subst l.
  rewrite E. rewrite getitem_fst, lookup_insert_eq. simpl.
  assert (L0 : <[p := compact l1]> levels0 = <[p := compact l1]> levels).
  { unfold getitem in Eg. destruct (levels !! p); simplify_eq; [done|].
    by rewrite insert_insert_eq. }
  rewrite L0. unfold level_step, pop. rewrite lookup_insert_eq.
  destruct (compact l1) as [|c cs] eqn:Ec.
  - rewrite bool_decide_eq_true_2 by done. by rewrite delete_insert_eq.
  - rewrite bool_decide_eq_false_2 by done. done.
Qed.

(** The outer loop never raises, and a property that holds where the loop
    stops and is carried through one level holds of its result. *)
Lemma match_levels_rect
    (P : Order.t → levels_t → list Z → Order.t → levels_t → list Trade.t → Prop) :
  (∀ inc levels, P inc levels [] inc levels []) →
  (∀ inc levels p ps,
     Order.quantity inc = 0 ∨ price_doesnt_match inc p = true →
     P inc levels (p :: ps) inc levels []) →
  (∀ inc levels p ps inc1 l1 trs inc2 levels3 trs',
     Order.quantity inc ≠ 0 →
     price_doesnt_match inc p = false →
     match_orders inc (default [] (levels !! p)) = (inc1, l1, trs) →
     match_levels inc1 (level_step levels p l1) ps = Ok (inc2, levels3, trs') →
     P inc1 (level_step levels p l1) ps inc2 levels3 trs' →
     P inc levels (p :: ps) inc2 levels3 (trs ++ trs')) →
  ∀ prices inc levels, ∃ inc' levels' trs,
    match_levels inc levels prices = Ok (inc', levels', trs) ∧
    P inc levels prices inc' levels' trs.
Proof.
  intros Hnil Hbreak Hstep. induction prices as [|p ps IH]; intros inc levels.
  - by exists inc, levels, [].
  - destruct (decide (Order.quantity inc = 0)) as [Hz|Hnz].
    { exists inc, levels, []. rewrite match_levels_break by auto. auto. }
    destruct (price_doesnt_match inc p) eqn:Hp.
    { exists inc, levels, []. rewrite match_levels_break by auto. auto. }
    destruct (match_orders inc (default [] (levels !! p))) as [[inc1 l1] trs] eqn:E.
    destruct (IH inc1 (level_step levels p l1)) as (inc2 & levels3 & trs' & E' & HP).
    exists inc2, levels3, (trs ++ trs').
    rewrite (match_levels_cons _ _ _ _ _ _ _ Hnz Hp E), E'. split; [done|].
    eapply Hstep; eauto.
Qed.

Lemma match_levels_total inc levels prices :
  ∃ inc' levels' trs, match_levels inc levels prices = Ok (inc', levels', trs).
Proof.
  destruct (match_levels_rect (λ _ _ _ _ _ _, True)) with (prices := prices)
    (inc := inc) (levels := levels) as (inc' & levels' & trs & E & _); eauto.
Qed.

(** A level after matching: some orders of the level before, in the same
    order, each with a quantity that may have changed. *)
Inductive shrinks : list Order.t → list Order.t → Prop :=
| shrinks_nil : shrinks [] []
| shrinks_keep b q l' l : shrinks l' l → shrinks (Order.set_quantity b q :: l') (b :: l)
| shrinks_drop b l' l : shrinks l' l → shrinks l' (b :: l).

Lemma shrinks_refl l : shrinks l l.
Proof.
  induction l as [|b l IH]; [constructor|].
  rewrite <- (set_quantity_id b) at 1. by constructor.
Qed.

Lemma shrinks_elem_of l' l b' :
  shrinks l' l → b' ∈ l' → ∃ b, b ∈ l ∧ b' = Order.set_quantity b (Order.quantity b').
Proof.
  induction 1 as [|b q l' l _ IH|b l' l _ IH]; intros Hin.
  - by apply elem_of_nil in Hin.
  - apply elem_of_cons in Hin as [->|Hin].
    + exists b. split; [left|done].
    + destruct (IH Hin) as (b0 & ? & ?). exists b0. split; [by right|done].
  - destruct (IH Hin) as (b0 & ? & ?). exists b0. split; [by right|done].
Qed.

Lemma shrinks_compact l1 l :
  Forall2 (λ b' b, b' = Order.set_quantity b (Order.quantity b')) l1 l →
  shrinks (compact l1) l.
Proof.
  induction 1 as [|b' b l1 l Hb _ IH]; [constructor|].
  unfold compact. rewrite filter_cons. case_decide.
  - rewrite Hb. by constructor.
  - by constructor.
Qed.

Lemma lookup_level_step levels p l1 q :
  level_step levels p l1 !! q =
    if decide (p = q)
    then (if decide (compact l1 = []) then None else Some (compact l1))
    else levels !! q.
Proof.
  unfold level_step. destruct (compact l1) eqn:E.
  - rewrite lookup_delete. by repeat case_decide.
  - rewrite lookup_insert. by repeat case_decide.
Qed.

Lemma match_levels_done inc levels prices :
  Order.quantity inc = 0 → match_levels inc levels prices = Ok (inc, levels, []).
Proof. intros H. destruct prices; [done|]. apply match_levels_break. auto. Qed.

(** A trade of an incoming order against an order of one of the given
    levels. *)
Definition trade_against (inc : Order.t) (levels : levels_t) (prices : list Z)
    (t : Trade.t) : Prop :=
  Trade.type t = Order.type inc ∧
  Trade.incoming_order_id t = Order.order_id inc ∧
  ∃ p l b, p ∈ prices ∧ levels !! p = Some l ∧ b ∈ l ∧
           Trade.price t = Order.price b ∧
           Trade.book_order_id t = Order.order_id b.

(** What the outer loop does, for any quantities and any list of prices. *)
Definition match_levels_post
    (inc : Order.t) (levels : levels_t) (prices : list Z)
    (inc' : Order.t) (levels' : levels_t) (trs : list Trade.t) : Prop :=
  inc' = Order.set_quantity inc (Order.quantity inc') ∧
  Order.quantity inc = Order.quantity inc' + traded trs ∧
  (∀ q, q ∉ prices → levels' !! q = levels !! q) ∧
  (∀ q l', levels' !! q = Some l' →
     levels !! q = Some l' ∨ (l' ≠ [] ∧ Forall (λ b, 0 < Order.quantity b) l')) ∧
  (∀ q l' b', levels' !! q = Some l' → b' ∈ l' →
     ∃ l b, levels !! q = Some l ∧ b ∈ l ∧
            b' = Order.set_quantity b (Order.quantity b')) ∧
  Forall (trade_against inc levels prices) trs.

Lemma traded_app trs trs' : traded (trs ++ trs') = traded trs + traded trs'.
Proof. induction trs as [|t trs IH]; simpl; lia. Qed.

Lemma compact_elem_of l b : b ∈ compact l ↔ 0 < Order.quantity b ∧ b ∈ l.
Proof. unfold compact. by rewrite list_elem_of_filter. Qed.

Lemma compact_positive l : Forall (λ b, 0 < Order.quantity b) (compact l).
Proof. apply Forall_forall. intros b Hb. by apply compact_elem_of in Hb as [? _]. Qed.

Lemma match_levels_post_stop inc levels prices :
  match_levels_post inc levels prices inc levels [].
Proof.
  unfold match_levels_post. rewrite set_quantity_id. simpl.
  split_and!; [done|lia|done|by left| |constructor].
  intros q l' b' Hq Hb'. exists l', b'. by rewrite set_quantity_id.
Qed.

Lemma match_levels_spec prices inc levels :
  ∃ inc' levels' trs,
    match_levels inc levels prices = Ok (inc', levels', trs) ∧
    match_levels_post inc levels prices inc' levels' trs.
Proof.
  apply match_levels_rect; clear.
  - intros inc levels. apply match_levels_post_stop.
  - intros inc levels p ps _. apply match_levels_post_stop.
  - intros inc levels p ps inc1 l1 trs inc2 levels3 trs' _ _ E _
      (P1 & P2 & P3 & P4 & P5 & P6).
    apply match_orders_spec in E as (E1 & E2 & E3 & E4).
    assert (Hl1 : ∀ b', b' ∈ l1 → ∃ l b, levels !! p = Some l ∧ b ∈ l ∧
                        b' = Order.set_quantity b (Order.quantity b')).
    { intros b' Hb'. destruct (levels !! p) as [l|] eqn:El; simpl in *.
      - apply list_elem_of_lookup in Hb' as [i Hi].
        destruct (Forall2_lookup_l _ _ _ _ _ E3 Hi) as (b & Hb & ->).
        exists l, b. split_and!; [done| |done]. by eapply list_elem_of_lookup_2.
      - inv E3. by apply elem_of_nil in Hb'. }
    unfold match_levels_post. split_and!.
    + rewrite P1, E1. done.
    + rewrite traded_app. lia.
    + intros q Hq. apply not_elem_of_cons in Hq as [Hne Hq].
      rewrite (P3 q Hq), lookup_level_step. by rewrite decide_False.
    + intros q l' Hq. destruct (P4 q l' Hq) as [Hs|?]; [|by right].
      rewrite lookup_level_step in Hs. case_decide; [|by left].
      case_decide; [done|]. simplify_eq. right. split; [done|].
      apply compact_positive.
    + intros q l' b' Hq Hb'.
      destruct (P5 q l' b' Hq Hb') as (l2 & b2 & Hl2 & Hb2 & Heq).
      rewrite lookup_level_step in Hl2. case_decide; [|by eauto].
      case_decide; [done|]. simplify_eq.
      apply compact_elem_of in Hb2 as [_ Hb2].
      destruct (Hl1 b2 Hb2) as (l & b & Hl & Hb & Heq2).
      exists l, b. split_and!; [done..|]. rewrite Heq, Heq2. done.
    + apply Forall_app. split.
      * apply Forall_forall. intros t Ht.
        apply list_elem_of_lookup in Ht as [i Hi].
        destruct (Forall2_lookup_l _ _ _ _ _ E4 Hi) as (b & Hb & T1 & T2 & T3 & T4).
        apply lookup_take_Some in Hb as [Hb _].
        destruct (levels !! p) as [l|] eqn:El; simpl in Hb; [|done].
        split_and!; [done..|]. exists p, l, b.
        split_and!; [left|done| |done..]. by eapply list_elem_of_lookup_2.
      * eapply Forall_impl; [exact P6|].
        intros t (T1 & T2 & q & l' & b' & Hin & Hq & Hb' & T3 & T4).
        rewrite E1 in T1, T2. simpl in T1, T2. split_and!; [done..|].
        rewrite lookup_level_step in Hq. case_decide.
        2:{ exists q, l', b'. split_and!; [by right|done..]. }
        case_decide; [done|]. simplify_eq.
        apply compact_elem_of in Hb' as [_ Hb'].
        destruct (Hl1 b' Hb') as (l & b & Hl & Hb & Heq).
        exists q, l, b. split_and!; [by right|done..| |].
        -- rewrite T3, Heq. done.
        -- rewrite T4, Heq. done.
Qed.

(** ** Best prices and sorted keys *)

Lemma max_of_spec ks : ∀ k,
  max_of k ks ∈ k :: ks ∧ ∀ q, q ∈ k :: ks → q ≤ max_of k ks.
Proof.
  unfold max_of. induction ks as [|x ks IH]; intros k; simpl.
  - split; [left|]. intros q Hq. apply list_elem_of_singleton in Hq. lia.
  - destruct (IH (Z.max k x)) as [Hin Hle]. split.
    + apply elem_of_cons in Hin as [Hin|Hin].
      * rewrite Hin. destruct (Z.max_spec k x) as [[_ ->]|[_ ->]];
          [right; left|left].
      * do 2 right. done.
    + intros q Hq. apply elem_of_cons in Hq as [->|Hq].
      * pose proof (Hle (Z.max k x) ltac:(left)). lia.
      * apply elem_of_cons in Hq as [->|Hq].
        -- pose proof (Hle (Z.max k x) ltac:(left)). lia.
        -- apply Hle. by right.
Qed.

Lemma min_of_spec ks : ∀ k,
  min_of k ks ∈ k :: ks ∧ ∀ q, q ∈ k :: ks → min_of k ks ≤ q.
Proof.
  unfold min_of. induction ks as [|x ks IH]; intros k; simpl.
  - split; [left|]. intros q Hq. apply list_elem_of_singleton in Hq. lia.
  - destruct (IH (Z.min k x)) as [Hin Hle]. split.
    + apply elem_of_cons in Hin as [Hin|Hin].
      * rewrite Hin. destruct (Z.min_spec k x) as [[_ ->]|[_ ->]];
          [left|right; left].
      * do 2 right. done.
    + intros q Hq. apply elem_of_cons in Hq as [->|Hq].
      * pose proof (Hle (Z.min k x) ltac:(left)). lia.
      * apply elem_of_cons in Hq as [->|Hq].
        -- pose proof (Hle (Z.min k x) ltac:(left)). lia.
        -- apply Hle. by right.
Qed.

(** [m] is the largest, or the smallest, key of a dictionary. *)
Definition is_max_key (levels : levels_t) (m : Z) : Prop :=
  is_Some (levels !! m) ∧ ∀ q, is_Some (levels !! q) → q ≤ m.
Definition is_min_key (levels : levels_t) (m : Z) : Prop :=
  is_Some (levels !! m) ∧ ∀ q, is_Some (levels !! q) → m ≤ q.

Lemma max_bid_spec ob :
  OrderBook.bids ob ≠ ∅ → is_max_key (OrderBook.bids ob) (max_bid ob).
Proof.
  intros Hne. unfold max_bid, is_max_key.
  destruct (keys (OrderBook.bids ob)) as [|k ks] eqn:E.
  { by apply keys_nil in E. }
  destruct (max_of_spec ks k) as [Hin Hle]. rewrite <- E in Hin, Hle. split.
  - by apply elem_of_keys.
  - intros q Hq. apply Hle. by apply elem_of_keys.
Qed.

Lemma min_offer_spec ob :
  OrderBook.offers ob ≠ ∅ →
  ∃ m, min_offer ob = Fin m ∧ is_min_key (OrderBook.offers ob) m.
Proof.
  intros Hne. unfold min_offer, is_min_key.
  destruct (keys (OrderBook.offers ob)) as [|k ks] eqn:E.
  { by apply keys_nil in E. }
  destruct (min_of_spec ks k) as [Hin Hle]. rewrite <- E in Hin, Hle.
  exists (min_of k ks). split; [done|]. split.
  - by apply elem_of_keys.
  - intros q Hq. apply Hle. by apply elem_of_keys.
Qed.

Lemma is_max_key_unique levels m m' : is_max_key levels m → is_max_key levels m' → m = m'.
Proof. intros [H1 H2] [H3 H4]. specialize (H2 _ H3). specialize (H4 _ H1). lia. Qed.

Lemma is_min_key_unique levels m m' : is_min_key levels m → is_min_key levels m' → m = m'.
Proof. intros [H1 H2] [H3 H4]. specialize (H2 _ H3). specialize (H4 _ H1). lia. Qed.

(** The order in which [process_match] walks the prices: ascending for a
    BUY, descending for a SELL. *)
Definition walks_before (ty : Type_) : relation Z :=
  match ty with
  | BUY => Z.le
  | SELL => flip Z.le
  end.

Lemma sorted_spec (levels : levels_t) ty :
  let prices := sorted (keys levels) (bool_decide (ty = SELL)) in
  NoDup prices ∧
  StronglySorted (walks_before ty) prices ∧
  ∀ q, q ∈ prices ↔ is_Some (levels !! q).
Proof.
  assert (Total (flip Z.le)) by (intros x y; unfold flip; lia).
  assert (Transitive (flip Z.le)) by (intros x y z; unfold flip; lia).
  assert (Total Z.le) by (intros x y; lia).
  assert (P : sorted (keys levels) (bool_decide (ty = SELL)) ≡ₚ keys levels).
  { unfold sorted. destruct (bool_decide _); apply merge_sort_Permutation. }
  simpl. split_and!.
  - rewrite P. apply NoDup_keys.
  - unfold sorted. destruct ty.
    + rewrite bool_decide_eq_false_2 by done. by apply StronglySorted_merge_sort; [apply _|].
    + rewrite bool_decide_eq_true_2 by done. by apply StronglySorted_merge_sort.
  - intros q. rewrite P. apply elem_of_keys.
Qed.

(** ** One call *)

(** The index on which an order of type [ty] rests, and the index it is
    matched against. *)
Definition own_side (ty : Type_) (ob : OrderBook.t) : levels_t :=
  match ty with
  | BUY => OrderBook.bids ob
  | SELL => OrderBook.offers ob
  end.
Definition opposite_side (ty : Type_) (ob : OrderBook.t) : levels_t :=
  match ty with
  | BUY => OrderBook.offers ob
  | SELL => OrderBook.bids ob
  end.

(** The incoming order as [process_order] stamps it. *)
Definition stamp (ob : OrderBook.t) (now : Z) (o : Order.t) : Order.t :=
  Order.set_order_id (Order.set_timestamp o now) (OrderBook.order_id ob + 1).

(** The prices that [process_match] walks for an incoming order. *)
Definition walk_prices (ob : OrderBook.t) (inc : Order.t) : list Z :=
  sorted (keys (opposite_side (Order.type inc) ob))
         (bool_decide (Order.type inc = SELL)).

(** [process_match] never raises; its result in terms of the outer loop. *)
Lemma process_match_spec ob inc :
  ∃ ob' inc' levels' trs,
    process_match ob inc = Ok (ob', inc') ∧
    match_levels inc (opposite_side (Order.type inc) ob) (walk_prices ob inc)
      = Ok (inc', levels', trs) ∧
    match_levels_post inc (opposite_side (Order.type inc) ob) (walk_prices ob inc)
      inc' levels' trs ∧
    opposite_side (Order.type inc) ob' = levels' ∧
    own_side (Order.type inc) ob' =
      (if 0 <? Order.quantity inc'
       then append_order (own_side (Order.type inc) ob) (Order.price inc) inc'
       else own_side (Order.type inc) ob) ∧
    OrderBook.trades ob' = OrderBook.trades ob ++ trs ∧
    OrderBook.order_id ob' = OrderBook.order_id ob.
Proof.
  destruct (match_levels_spec (walk_prices ob inc) inc
              (opposite_side (Order.type inc) ob))
    as (inc' & levels' & trs & E & Hpost).
  assert (Hty : Order.type inc' = Order.type inc).
  { destruct Hpost as [-> _]. done. }
  assert (Hpr : Order.price inc' = Order.price inc).
  { destruct Hpost as [-> _]. done. }
  unfold process_match, walk_prices in *.
  destruct (Order.type inc) eqn:Et; simpl in *; rewrite E; simpl; rewrite Hty, Hpr;
    destruct (0 <? Order.quantity inc') eqn:Eq; eexists _, inc', levels', trs;
    (split; [reflexivity|]); split_and!; try done; simpl; by rewrite Eq.
Qed.

(** An incoming order is marketable: the opposite side has a best price and
    the limit price reaches it. *)
Definition marketable (ob : OrderBook.t) (o : Order.t) : Prop :=
  match Order.type o with
  | BUY =>
      OrderBook.offers ob ≠ ∅ ∧
      ∃ m, is_min_key (OrderBook.offers ob) m ∧ m ≤ Order.price o
  | SELL =>
      OrderBook.bids ob ≠ ∅ ∧
      ∃ m, is_max_key (OrderBook.bids ob) m ∧ Order.price o ≤ m
  end.

(** The book in which the incoming order rests without matching. *)
Definition rest_order (ob : OrderBook.t) (o : Order.t) : OrderBook.t :=
  match Order.type o with
  | BUY => OrderBook.mk (append_order (OrderBook.bids ob) (Order.price o) o)
                        (OrderBook.offers ob) (OrderBook.trades ob) (OrderBook.order_id ob)
  | SELL => OrderBook.mk (OrderBook.bids ob)
                         (append_order (OrderBook.offers ob) (Order.price o) o)
                         (OrderBook.trades ob) (OrderBook.order_id ob)
  end.

Lemma marketable_buy ob o :
  Order.type o = BUY →
  geb_ext (Order.price o) (min_offer ob) && truthy (OrderBook.offers ob) = true
  ↔ marketable ob o.
Proof.
  intros Et. unfold marketable. rewrite Et, andb_true_iff, truthy_true. split.
  - intros [Hge Hne]. split; [done|].
    destruct (min_offer_spec ob Hne) as (m & Em & Hm). rewrite Em in Hge.
    exists m. split; [done|]. simpl in Hge. lia.
  - intros [Hne (m & Hm & Hle)]. split; [|done].
    destruct (min_offer_spec ob Hne) as (m' & Em & Hm'). rewrite Em. simpl.
    rewrite (is_min_key_unique _ _ _ Hm' Hm). lia.
Qed.

Lemma marketable_sell ob o :
  Order.type o = SELL →
  (Order.price o <=? max_bid ob) && truthy (OrderBook.bids ob) = true
  ↔ marketable ob o.
Proof.
  intros Et. unfold marketable. rewrite Et, andb_true_iff, truthy_true. split.
  - intros [Hge Hne]. split; [done|].
    exists (max_bid ob). split; [by apply max_bid_spec|]. lia.
  - intros [Hne (m & Hm & Hle)]. split; [|done].
    rewrite (is_max_key_unique _ _ _ (max_bid_spec ob Hne) Hm). lia.
Qed.

Global Instance marketable_dec ob o : Decision (marketable ob o).
Proof.
  destruct (Order.type o) eqn:Et.
  - destruct (geb_ext (Order.price o) (min_offer ob) && truthy (OrderBook.offers ob)) eqn:E.
    + left. by apply marketable_buy.
    + right. rewrite <- marketable_buy by done. by rewrite E.
  - destruct ((Order.price o <=? max_bid ob) && truthy (OrderBook.bids ob)) eqn:E.
    + left. by apply marketable_sell.
    + right. rewrite <- marketable_sell by done. by rewrite E.
Defined.

(** The book with the order counter advanced, as [new_order_id] leaves it. *)
Definition advance (ob : OrderBook.t) : OrderBook.t := (new_order_id ob).1.

Lemma marketable_advance ob now o :
  marketable (advance ob) (stamp ob now o) ↔ marketable ob o.
Proof. done. Qed.

Lemma process_order_unfold ob now o :
  process_order ob now o =
    let ob1 := advance ob in
    let inc := stamp ob now o in
    match Order.type inc with
    | BUY =>
        if geb_ext (Order.price inc) (min_offer ob1) && truthy (OrderBook.offers ob1)
        then process_match ob1 inc else Ok (rest_order ob1 inc, inc)
    | SELL =>
        if (Order.price inc <=? max_bid ob1) && truthy (OrderBook.bids ob1)
        then process_match ob1 inc else Ok (rest_order ob1 inc, inc)
    end.
Proof. unfold rest_order. by destruct o as [[] ? ? ? ? ? ? ? ?]. Qed.

Lemma process_order_marketable ob now o :
  marketable ob o →
  process_order ob now o = process_match (advance ob) (stamp ob now o).
Proof.
  intros H. apply (marketable_advance ob now) in H.
  rewrite process_order_unfold. cbv zeta.
  destruct (Order.type (stamp ob now o)) eqn:Et.
  - apply marketable_buy in H; [|done]. by rewrite H.
  - apply marketable_sell in H; [|done]. by rewrite H.
Qed.

Lemma process_order_rest ob now o :
  ¬ marketable ob o →
  process_order ob now o = Ok (rest_order (advance ob) (stamp ob now o), stamp ob now o).
Proof.
  intros H. rewrite <- (marketable_advance ob now) in H.
  rewrite process_order_unfold. cbv zeta.
  destruct (Order.type (stamp ob now o)) eqn:Et.
  - rewrite <- marketable_buy in H by done. apply not_true_is_false in H. by rewrite H.
  - rewrite <- marketable_sell in H by done. apply not_true_is_false in H. by rewrite H.
Qed.

Lemma own_side_advance ty ob : own_side ty (advance ob) = own_side ty ob.
Proof. by destruct ty. Qed.

Lemma opposite_side_advance ty ob : opposite_side ty (advance ob) = opposite_side ty ob.
Proof. by destruct ty. Qed.

Lemma walk_prices_advance ob now o :
  walk_prices (advance ob) (stamp ob now o) = walk_prices ob o.
Proof. unfold walk_prices. simpl. by rewrite opposite_side_advance. Qed.

Lemma own_side_rest_order ob o :
  own_side (Order.type o) (rest_order ob o) =
    append_order (own_side (Order.type o) ob) (Order.price o) o.
Proof. unfold rest_order. by destruct (Order.type o). Qed.

Lemma opposite_side_rest_order ob o :
  opposite_side (Order.type o) (rest_order ob o) = opposite_side (Order.type o) ob.
Proof. unfold rest_order. by destruct (Order.type o). Qed.

Lemma sides_eq ty ob ob' :
  own_side ty ob' = own_side ty ob →
  opposite_side ty ob' = opposite_side ty ob →
  OrderBook.bids ob' = OrderBook.bids ob ∧ OrderBook.offers ob' = OrderBook.offers ob.
Proof. by destruct ty. Qed.

(** The result of a call on a marketable order, in terms of the outer loop
    run on the stamped order. *)
Definition matched (ob : OrderBook.t) (now : Z) (o : Order.t)
    (ob' : OrderBook.t) (o' : Order.t) (trs : list Trade.t) : Prop :=
  let ty := Order.type o in
  match_levels (stamp ob now o) (opposite_side ty ob) (walk_prices ob o)
    = Ok (o', opposite_side ty ob', trs) ∧
  match_levels_post (stamp ob now o) (opposite_side ty ob) (walk_prices ob o)
    o' (opposite_side ty ob') trs ∧
  own_side ty ob' =
    (if 0 <? Order.quantity o'
     then append_order (own_side ty ob) (Order.price o) o'
     else own_side ty ob) ∧
  OrderBook.trades ob' = OrderBook.trades ob ++ trs ∧
  OrderBook.order_id ob' = OrderBook.order_id ob + 1.

Lemma process_order_matched ob now o :
  marketable ob o →
  ∃ ob' o' trs, process_order ob now o = Ok (ob', o') ∧ matched ob now o ob' o' trs.
Proof.
  intros Hm. rewrite process_order_marketable by done.
  destruct (process_match_spec (advance ob) (stamp ob now o))
    as (ob' & o' & levels' & trs & E & E1 & E2 & E3 & E4 & E5 & E6).
  rewrite walk_prices_advance in E1, E2.
  change (Order.type (stamp ob now o)) with (Order.type o) in *.
  change (Order.price (stamp ob now o)) with (Order.price o) in *.
  rewrite opposite_side_advance in E1, E2. rewrite own_side_advance in E4.
  exists ob', o', trs. split; [done|]. unfold matched. simpl.
  rewrite E3. split_and!; done.
Qed.

(** [process_order] never raises. *)
Lemma process_order_total ob now o :
  ∃ ob' o', process_order ob now o = Ok (ob', o').
Proof.
  destruct (decide (marketable ob o)) as [Hm|Hm].
  - destruct (process_order_matched ob now o Hm) as (ob' & o' & trs & E & _). eauto.
  - rewrite process_order_rest by done. eauto.
Qed.

(** ** Matching with positive quantities *)

(** Every order resting in the index has a quantity above 0. *)
Definition positive_levels (levels : levels_t) : Prop :=
  ∀ p l, levels !! p = Some l → Forall (λ b, 0 < Order.quantity b) l.

Lemma match_levels_post_of prices inc levels inc' levels' trs :
  match_levels inc levels prices = Ok (inc', levels', trs) →
  match_levels_post inc levels prices inc' levels' trs.
Proof.
  intros E. destruct (match_levels_spec prices inc levels) as (a & b & c & E' & H).
  rewrite E in E'. by simplify_eq.
Qed.

Lemma positive_level_step levels p l1 :
  positive_levels levels → positive_levels (level_step levels p l1).
Proof.
  intros H q l. rewrite lookup_level_step. case_decide; [|by apply H].
  case_decide; [done|]. intros [= <-]. apply compact_positive.
Qed.

Lemma positive_default levels p :
  positive_levels levels → Forall (λ b, 0 < Order.quantity b) (default [] (levels !! p)).
Proof. intros H. destruct (levels !! p) eqn:E; simpl; [by eapply H|constructor]. Qed.

Lemma match_levels_positive prices inc levels inc' levels' trs :
  match_levels inc levels prices = Ok (inc', levels', trs) →
  0 ≤ Order.quantity inc →
  positive_levels levels →
  0 ≤ Order.quantity inc' ∧ positive_levels levels' ∧
  Forall (λ t, 0 < Trade.quantity t) trs.
Proof.
  intros E.
  cut (∃ a b c, match_levels inc levels prices = Ok (a, b, c) ∧
         (0 ≤ Order.quantity inc → positive_levels levels →
          0 ≤ Order.quantity a ∧ positive_levels b ∧
          Forall (λ t, 0 < Trade.quantity t) c)).
  { intros (a & b & c & E' & H). rewrite E in E'. by simplify_eq. }
  clear. revert prices inc levels. apply match_levels_rect.
  - intros inc levels Hq Hl. by split_and!.
  - intros inc levels p ps _ Hq Hl. by split_and!.
  - intros inc levels p ps inc1 l1 trs inc2 levels3 trs' _ _ E _ IH Hq Hl.
    destruct (match_orders_positive _ _ _ _ _ E Hq (positive_default _ p Hl))
      as (Hq1 & Ht & _).
    destruct (IH Hq1 (positive_level_step _ p l1 Hl)) as (Hq2 & Hl3 & Ht').
    split_and!; [done..|]. by apply Forall_app.
Qed.

Lemma price_doesnt_match_mono inc inc1 p q :
  Order.type inc1 = Order.type inc →
  Order.price inc1 = Order.price inc →
  walks_before (Order.type inc) p q →
  price_doesnt_match inc p = true → price_doesnt_match inc1 q = true.
Proof.
  unfold price_doesnt_match, walks_before, flip. intros -> ->.
  destruct (Order.type inc); rewrite !Z.ltb_lt; lia.
Qed.

(** With positive quantities, an incoming order that leaves the walk with a
    remaining quantity has removed every level whose price it crosses. *)
Lemma match_levels_clears prices inc levels inc' levels' trs :
  match_levels inc levels prices = Ok (inc', levels', trs) →
  NoDup prices →
  StronglySorted (walks_before (Order.type inc)) prices →
  0 ≤ Order.quantity inc →
  positive_levels levels →
  0 < Order.quantity inc' →
  ∀ q, q ∈ prices → price_doesnt_match inc q = false → levels' !! q = None.
Proof.
  intros E.
  cut (∃ a b c, match_levels inc levels prices = Ok (a, b, c) ∧
         (NoDup prices →
          StronglySorted (walks_before (Order.type inc)) prices →
          0 ≤ Order.quantity inc → positive_levels levels →
          0 < Order.quantity a →
          ∀ q, q ∈ prices → price_doesnt_match inc q = false → b !! q = None)).
  { intros (a & b & c & E' & H). rewrite E in E'. by simplify_eq. }
  clear. revert prices inc levels. apply match_levels_rect.
  - intros inc levels _ _ _ _ _ q Hq. by apply elem_of_nil in Hq.
  - intros inc levels p ps [Hz|Hp] _ Hs _ _ Hpos q Hq Hm; [lia|].
    exfalso. apply elem_of_cons in Hq as [->|Hq]; [congruence|].
    apply StronglySorted_inv in Hs as [_ Hs].
    rewrite Forall_forall in Hs.
    rewrite (price_doesnt_match_mono inc inc p q) in Hm; auto. done.
  - intros inc levels p ps inc1 l1 trs inc2 levels3 trs' Hnz _ E E' IH
      Hnd Hs Hq Hl Hpos q Hin Hm.
    destruct (match_orders_spec _ _ _ _ _ E) as (E1 & _).
    assert (Hty : Order.type inc1 = Order.type inc) by (by rewrite E1).
    assert (Hpr : Order.price inc1 = Order.price inc) by (by rewrite E1).
    destruct (match_orders_positive _ _ _ _ _ E Hq (positive_default _ p Hl))
      as (Hq1 & _ & Hfill).
    apply NoDup_cons in Hnd as [Hnp Hnd].
    apply StronglySorted_inv in Hs as [Hs _].
    apply elem_of_cons in Hin as [->|Hin].
    + destruct (match_levels_post_of _ _ _ _ _ _ E') as (_ & _ & Hframe & _).
      rewrite (Hframe p Hnp), lookup_level_step, decide_True by done.
      destruct (decide (Order.quantity inc1 = 0)) as [Hz|Hnz1].
      { rewrite match_levels_done in E' by done. simplify_eq. lia. }
      rewrite decide_True; [done|].
      assert (Hf : Forall (λ b, Order.quantity b = 0) l1) by (apply Hfill; lia).
      unfold compact. clear -Hf. induction Hf as [|b l Hb _ IH]; [done|].
      rewrite filter_cons, decide_False by lia. done.
    + apply IH; try done.
      * by rewrite Hty.
      * by apply positive_level_step.
      * unfold price_doesnt_match in *. by rewrite Hty, Hpr.
Qed.

(** ** The book between calls *)

(** An order with a positive price and a positive quantity. *)
Definition valid (o : Order.t) : Prop := 0 < Order.price o ∧ 0 < Order.quantity o.

Global Instance valid_dec o : Decision (valid o).
Proof. unfold valid. apply _. Defined.

(** No level of the index is empty and every resting order has a quantity
    above 0. *)
Definition hygienic (levels : levels_t) : Prop :=
  ∀ p l, levels !! p = Some l → l ≠ [] ∧ Forall (λ b, 0 < Order.quantity b) l.

(** Every bid price is below every offer price. *)
Definition uncrossed (ob : OrderBook.t) : Prop :=
  ∀ pb po, is_Some (OrderBook.bids ob !! pb) → is_Some (OrderBook.offers ob !! po) → pb < po.

Definition book_inv (ob : OrderBook.t) : Prop :=
  hygienic (OrderBook.bids ob) ∧ hygienic (OrderBook.offers ob) ∧ uncrossed ob.

(** [uncrossed], seen from the side of an order of type [ty]. *)
Definition apart (ty : Type_) (own opp : levels_t) : Prop :=
  ∀ p q, is_Some (own !! p) → is_Some (opp !! q) →
    match ty with BUY => p < q | SELL => q < p end.

Lemma uncrossed_apart ty ob :
  uncrossed ob ↔ apart ty (own_side ty ob) (opposite_side ty ob).
Proof. unfold uncrossed, apart. destruct ty; simpl; [done|]. split; eauto. Qed.

Lemma book_inv_sides ty ob :
  book_inv ob ↔
  hygienic (own_side ty ob) ∧ hygienic (opposite_side ty ob) ∧
  apart ty (own_side ty ob) (opposite_side ty ob).
Proof.
  unfold book_inv. rewrite (uncrossed_apart ty). destruct ty; simpl; [done|].
  split; intros (? & ? & ?); done.
Qed.

Lemma hygienic_positive levels : hygienic levels → positive_levels levels.
Proof. intros H p l Hl. by apply H in Hl as [_ ?]. Qed.

Lemma hygienic_append levels p o :
  hygienic levels → 0 < Order.quantity o → hygienic (append_order levels p o).
Proof.
  intros H Hq q l. rewrite lookup_append_order. case_decide; [|by apply H].
  intros [= <-]. split; [by destruct (default _ _)|].
  apply Forall_app. split; [|by repeat constructor].
  destruct (levels !! p) eqn:E; simpl; [by eapply H|constructor].
Qed.

Lemma is_Some_append levels p o q :
  is_Some (append_order levels p o !! q) ↔ q = p ∨ is_Some (levels !! q).
Proof.
  rewrite lookup_append_order. case_decide; subst.
  - split; [by left|by eauto].
  - split; [by right|]. by intros [?|?].
Qed.

Lemma match_levels_post_dom inc levels prices inc' levels' trs q :
  match_levels_post inc levels prices inc' levels' trs →
  is_Some (levels' !! q) → is_Some (levels !! q).
Proof.
  intros (_ & _ & _ & H4 & H5 & _) [l' Hl'].
  destruct (H4 _ _ Hl') as [?|[Hne _]]; [by eauto|].
  destruct l' as [|b' l']; [done|].
  destruct (H5 q _ b' Hl') as (l & _ & ? & _); [left|]. by eauto.
Qed.

Lemma match_levels_post_hygienic inc levels prices inc' levels' trs :
  match_levels_post inc levels prices inc' levels' trs →
  hygienic levels → hygienic levels'.
Proof.
  intros (_ & _ & _ & H4 & _) H q l' Hl'.
  destruct (H4 _ _ Hl') as [?|?]; [by eapply H|done].
Qed.

(** The limit price of an order that is not marketable is beyond every
    price of the opposite index. *)
Lemma not_marketable_beyond ob o q :
  ¬ marketable ob o →
  is_Some (opposite_side (Order.type o) ob !! q) →
  price_doesnt_match o q = true.
Proof.
  unfold marketable, price_doesnt_match. intros Hm Hq.
  destruct (Order.type o); simpl in Hq; apply Z.ltb_lt.
  - assert (Hne : OrderBook.offers ob ≠ ∅).
    { intros E. rewrite E, lookup_empty in Hq. by destruct Hq. }
    destruct (min_offer_spec ob Hne) as (m & _ & Hmin).
    destruct (decide (m ≤ Order.price o)) as [Hle|Hgt].
    + exfalso. apply Hm. eauto.
    + destruct Hmin as [_ Hmin]. specialize (Hmin q Hq). lia.
  - assert (Hne : OrderBook.bids ob ≠ ∅).
    { intros E. rewrite E, lookup_empty in Hq. by destruct Hq. }
    pose proof (max_bid_spec ob Hne) as Hmax.
    destruct (decide (Order.price o ≤ max_bid ob)) as [Hle|Hgt].
    + exfalso. apply Hm. eauto.
    + destruct Hmax as [_ Hmax]. specialize (Hmax q Hq). lia.
Qed.

Lemma beyond_apart ty own opp p o :
  apart ty own opp →
  (∀ q, is_Some (opp !! q) →
     match ty with BUY => p < q | SELL => q < p end) →
  apart ty (append_order own p o) opp.
Proof.
  intros Ha Hb p' q Hp' Hq.
  apply is_Some_append in Hp' as [->|Hp']; [by apply Hb|by apply Ha].
Qed.

Lemma book_inv_step ob now o ob' o' :
  book_inv ob → valid o →
  process_order ob now o = Ok (ob', o') → book_inv ob'.
Proof.
  intros Hinv [_ Hq] E.
  apply (book_inv_sides (Order.type o)) in Hinv as (Hown & Hopp & Hap).
  apply (book_inv_sides (Order.type o)).
  destruct (decide (marketable ob o)) as [Hm|Hm].
  - destruct (process_order_matched ob now o Hm)
      as (ob2 & o2 & trs & E2 & El & Hpost & Hown' & _).
    rewrite E in E2. simplify_eq.
    assert (Hap' : apart (Order.type o) (own_side (Order.type o) ob)
                     (opposite_side (Order.type o) ob2)).
    { intros p q Hp Hq'. apply Hap; [done|]. by eapply match_levels_post_dom. }
    rewrite Hown'. split_and!.
    + destruct (0 <? Order.quantity o2) eqn:Hq2; [|done].
      apply hygienic_append; [done|]. by apply Z.ltb_lt.
    + by eapply match_levels_post_hygienic.
    + destruct (0 <? Order.quantity o2) eqn:Hq2; [|done].
      apply Z.ltb_lt in Hq2. apply beyond_apart; [done|]. intros q Hq'.
      assert (Hin : q ∈ walk_prices ob o).
      { apply sorted_spec. by eapply match_levels_post_dom. }
      destruct (sorted_spec (opposite_side (Order.type o) ob) (Order.type o))
        as (Hnd & Hs & _).
      destruct (price_doesnt_match (stamp ob now o) q) eqn:Hp.
      * unfold price_doesnt_match in Hp.
        change (Order.type (stamp ob now o)) with (Order.type o) in Hp.
        change (Order.price (stamp ob now o)) with (Order.price o) in Hp.
        destruct (Order.type o); by apply Z.ltb_lt in Hp.
      * exfalso. assert (Hnone := match_levels_clears _ _ _ _ _ _ El Hnd Hs).
        rewrite Hnone in Hq'; [by destruct Hq'|simpl; lia| |done..].
        by apply hygienic_positive.
  - rewrite process_order_rest in E by done. simplify_eq.
    change (Order.type o) with (Order.type (stamp ob now o)).
    rewrite own_side_rest_order, opposite_side_rest_order.
    rewrite own_side_advance, opposite_side_advance. split_and!.
    + by apply hygienic_append.
    + done.
    + apply beyond_apart; [done|]. intros q Hq'.
      assert (Hp := not_marketable_beyond ob o q Hm Hq').
      unfold price_doesnt_match in Hp.
      change (Order.type (stamp ob now o)) with (Order.type o).
      change (Order.price (stamp ob now o)) with (Order.price o).
      destruct (Order.type o); by apply Z.ltb_lt in Hp.
Qed.

Lemma book_inv_init : book_inv OrderBook.init.
Proof.
  split_and!.
  - intros p l H. simpl in H. by rewrite lookup_empty in H.
  - intros p l H. simpl in H. by rewrite lookup_empty in H.
  - intros pb po [l H]. simpl in H. by rewrite lookup_empty in H.
Qed.

(** ** Sequences of calls *)

(** The driver loop never raises, and an invariant of the calls on orders
    that satisfy [V] holds after any sequence of such orders. *)
Lemma process_orders_invariant (I : OrderBook.t → Prop) (V : Order.t → Prop) :
  (∀ ob now o ob' o', I ob → V o → process_order ob now o = Ok (ob', o') → I ob') →
  ∀ orders ob, I ob → Forall (λ x, V x.2) orders →
    ∃ ob', process_orders ob orders = Ok ob' ∧ I ob'.
Proof.
  intros Hstep. induction orders as [|[now o] orders IH]; intros ob HI HV.
  - by exists ob.
  - inv HV. destruct (process_order_total ob now o) as (ob1 & o1 & E).
    simpl. rewrite E. simpl. apply IH; [|done]. eapply Hstep; eauto.
Qed.

Lemma book_inv_reached orders :
  Forall (λ x, valid x.2) orders →
  ∃ ob, process_orders OrderBook.init orders = Ok ob ∧ book_inv ob.
Proof.
  apply (process_orders_invariant book_inv valid); [|apply book_inv_init].
  intros ob now o ob' o'. apply book_inv_step.
Qed.

Lemma process_orders_app ob orders now o ob1 ob2 o2 :
  process_orders ob orders = Ok ob1 →
  process_order ob1 now o = Ok (ob2, o2) →
  process_orders ob (orders ++ [(now, o)]) = Ok ob2.
Proof.
  revert ob. induction orders as [|[now' o'] orders IH]; intros ob E1 E2; simpl in *.
  - simplify_eq. by rewrite E2.
  - destruct (process_order ob now' o') as [[ob3 o3]|e]; simpl in *; [|done].
    by apply IH.
Qed.

(** ** Levels that a call removes *)

(** A trade that fills the resting order [b] completely. *)
Definition fills (trs : list Trade.t) (b : Order.t) : Prop :=
  ∃ t, t ∈ trs ∧ Trade.book_order_id t = Order.order_id b ∧
       Trade.price t = Order.price b ∧ Trade.quantity t = Order.quantity b.

(** An order of the level keeps its quantity, or a trade of the loop takes
    what it lost. *)
Lemma match_orders_filled l : ∀ inc inc' l' trs,
  match_orders inc l = (inc', l', trs) →
  Forall2 (λ b' b,
    Order.quantity b' = Order.quantity b ∨
    0 ≤ Order.quantity b' ∧
    fills trs (Order.set_quantity b (Order.quantity b - Order.quantity b'))) l' l.
Proof.
  induction l as [|b rest IH]; intros inc inc' l' trs H.
  - rewrite match_orders_nil in H. simplify_eq. constructor.
  - destruct (decide (Order.quantity inc = 0)) as [Hz|Hnz].
    + rewrite match_orders_done in H by done. simplify_eq.
      apply Forall2_same_length_lookup_2; [done|].
      intros i x y Hx Hy. simplify_eq. by left.
    + rewrite match_orders_cons, match_step_eq in H by done.
      destruct (match_orders _ rest) as [[inc2 rest'] trs'] eqn:E.
      simplify_eq. constructor.
      * right. simpl. split; [lia|]. exists (execute_match inc b).
        split_and!; [left|done|done|simpl; lia].
      * eapply Forall2_impl; [by eapply IH|]. simpl.
        intros b' b0 [?|[? (t & Ht & ?)]]; [by left|right].
        split; [done|]. exists t. split; [by right|done].
Qed.

Lemma fills_app_l trs trs' b : fills trs b → fills (trs ++ trs') b.
Proof. intros (t & Ht & ?). exists t. split; [|done]. apply elem_of_app. by left. Qed.

Lemma fills_app_r trs trs' b : fills trs' b → fills (trs ++ trs') b.
Proof. intros (t & Ht & ?). exists t. split; [|done]. apply elem_of_app. by right. Qed.

(** With positive resting quantities, a level that the walk removes had
    every one of its orders filled completely by a trade of the walk. *)
Lemma match_levels_removed prices inc levels inc' levels' trs :
  match_levels inc levels prices = Ok (inc', levels', trs) →
  NoDup prices →
  positive_levels levels →
  ∀ p l, levels !! p = Some l → levels' !! p = None → Forall (fills trs) l.
Proof.
  intros E.
  cut (∃ a b c, match_levels inc levels prices = Ok (a, b, c) ∧
         (NoDup prices → positive_levels levels →
          ∀ p l, levels !! p = Some l → b !! p = None → Forall (fills c) l)).
  { intros (a & b & c & E' & H). rewrite E in E'. by simplify_eq. }
  clear. revert prices inc levels. apply match_levels_rect.
  - intros inc levels _ _ p l Hl Hn. congruence.
  - intros inc levels p0 ps _ _ _ p l Hl Hn. congruence.
  - intros inc levels p0 ps inc1 l1 trs inc2 levels3 trs' _ _ E E' IH
      Hnd Hpos p l Hl Hn.
    apply NoDup_cons in Hnd as [Hnp Hnd].
    destruct (decide (p0 = p)) as [->|Hne].
    + destruct (match_levels_post_of _ _ _ _ _ _ E') as (_ & _ & Hframe & _).
      rewrite (Hframe p Hnp), lookup_level_step, decide_True in Hn by done.
      case_decide as Hc; [|done]. rewrite Hl in E. simpl in E.
      apply match_orders_filled in E.
      assert (Hl1 : Forall (λ b', ¬ 0 < Order.quantity b') l1).
      { apply Forall_forall. intros b' Hb' Hq.
        assert (Hin : b' ∈ compact l1) by (by apply compact_elem_of).
        rewrite Hc in Hin. by apply elem_of_nil in Hin. }
      specialize (Hpos _ _ Hl). clear -E Hl1 Hpos.
      induction E as [|b' b l1 l Hb _ IH]; [constructor|].
      inv Hl1. inv Hpos. constructor; [|by apply IH].
      apply fills_app_l. destruct Hb as [Hb|[Hb Hf]]; [lia|].
      replace (Order.quantity b - Order.quantity b') with (Order.quantity b) in Hf by lia.
      by rewrite set_quantity_id in Hf.
    + eapply Forall_impl; [|intros b; apply fills_app_r].
      apply (IH Hnd (positive_level_step _ p0 l1 Hpos) p l); [|done].
      by rewrite lookup_level_step, decide_False.
Qed.

(** ** Order ids and time priority *)

(** [a] was given its id before [b]. *)
Definition id_lt (a b : Order.t) : Prop :=
  match Order.order_id a, Order.order_id b with
  | Some i, Some j => i < j
  | _, _ => False
  end.

(** Every level lists its orders by increasing id. *)
Definition ids_sorted (levels : levels_t) : Prop :=
  ∀ p l, levels !! p = Some l → StronglySorted id_lt l.

(** No id rests at two prices of the index. *)
Definition ids_apart (levels : levels_t) : Prop :=
  ∀ p p' l l' b b',
    levels !! p = Some l → levels !! p' = Some l' → b ∈ l → b' ∈ l' →
    Order.order_id b = Order.order_id b' → p = p'.

(** Every resting order has an id, at most [n]. *)
Definition ids_below (n : Z) (levels : levels_t) : Prop :=
  ∀ p l b, levels !! p = Some l → b ∈ l → ∃ i, Order.order_id b = Some i ∧ i ≤ n.

Definition ids_ok (n : Z) (levels : levels_t) : Prop :=
  ids_sorted levels ∧ ids_apart levels ∧ ids_below n levels.

Definition ids_inv (ob : OrderBook.t) : Prop :=
  ids_ok (OrderBook.order_id ob) (OrderBook.bids ob) ∧
  ids_ok (OrderBook.order_id ob) (OrderBook.offers ob).

(** Each level of [levels'] is a level of [levels] that has shrunk. *)
Definition shrunk (levels' levels : levels_t) : Prop :=
  ∀ q l', levels' !! q = Some l' → ∃ l, levels !! q = Some l ∧ shrinks l' l.

Lemma id_lt_irrefl a b : id_lt a b → Order.order_id a ≠ Order.order_id b.
Proof.
  unfold id_lt. intros H E. rewrite E in H. destruct (Order.order_id b); [lia|done].
Qed.

Lemma id_lt_asym a b : id_lt a b → id_lt b a → False.
Proof.
  unfold id_lt. destruct (Order.order_id a), (Order.order_id b); try done. lia.
Qed.

Lemma id_lt_proper a a' b b' :
  Order.order_id a' = Order.order_id a → Order.order_id b' = Order.order_id b →
  id_lt a b → id_lt a' b'.
Proof. unfold id_lt. by intros -> ->. Qed.

Lemma StronglySorted_lookup {A} (R : relation A) l i j x y :
  StronglySorted R l → l !! i = Some x → l !! j = Some y → (i < j)%nat → R x y.
Proof.
  intros Hs. revert i j. induction Hs as [|z l Hs IH Hz]; intros i j Hi Hj Hlt.
  - by rewrite lookup_nil in Hi.
  - destruct j as [|j]; [lia|]. destruct i as [|i]; simpl in *.
    + simplify_eq. rewrite Forall_forall in Hz. apply Hz.
      by eapply list_elem_of_lookup_2.
    + eapply IH; eauto. lia.
Qed.

Lemma shrinks_sorted l' l :
  shrinks l' l → StronglySorted id_lt l → StronglySorted id_lt l'.
Proof.
  induction 1 as [|b q l' l Hsh IH|b l' l Hsh IH]; intros Hs.
  - constructor.
  - apply StronglySorted_inv in Hs as [Hs Hb]. constructor; [by apply IH|].
    apply Forall_forall. intros b' Hb'.
    destruct (shrinks_elem_of _ _ _ Hsh Hb') as (b0 & Hb0 & Heq).
    rewrite Forall_forall in Hb. specialize (Hb _ Hb0).
    eapply id_lt_proper; [| |exact Hb]; [done|by rewrite Heq].
  - apply StronglySorted_inv in Hs as [Hs _]. by apply IH.
Qed.

Lemma ids_ok_shrunk n levels' levels :
  shrunk levels' levels → ids_ok n levels → ids_ok n levels'.
Proof.
  intros Hsh (Hs & Ha & Hb). split_and!.
  - intros q l' Hl'. destruct (Hsh _ _ Hl') as (l & Hl & Hshl).
    eapply shrinks_sorted; [done|]. by eapply Hs.
  - intros p p' l1' l2' b1' b2' Hl1 Hl2 Hb1 Hb2 Heq.
    destruct (Hsh _ _ Hl1) as (l1 & Hl1' & Hsh1).
    destruct (Hsh _ _ Hl2) as (l2 & Hl2' & Hsh2).
    destruct (shrinks_elem_of _ _ _ Hsh1 Hb1) as (b1 & Hin1 & E1).
    destruct (shrinks_elem_of _ _ _ Hsh2 Hb2) as (b2 & Hin2 & E2).
    eapply (Ha p p' l1 l2 b1 b2); try done.
    rewrite E1, E2 in Heq. done.
  - intros p l' b' Hl' Hb'. destruct (Hsh _ _ Hl') as (l & Hl & Hshl).
    destruct (shrinks_elem_of _ _ _ Hshl Hb') as (b & Hin & E).
    destruct (Hb _ _ _ Hl Hin) as (i & Hi & Hle). exists i. split; [|done].
    rewrite E. done.
Qed.

Lemma shrunk_level_step levels p inc inc1 l1 trs :
  match_orders inc (default [] (levels !! p)) = (inc1, l1, trs) →
  shrunk (level_step levels p l1) levels.
Proof.
  intros E q l'. rewrite lookup_level_step. case_decide as Hp.
  - subst q. case_decide as Hc; [done|]. intros [= <-].
    apply match_orders_spec in E as (_ & _ & E3 & _).
    destruct (levels !! p) as [l|]; simpl in E3.
    + exists l. split; [done|]. by apply shrinks_compact.
    + by inv E3.
  - intros Hl'. exists l'. split; [done|]. apply shrinks_refl.
Qed.

Lemma match_levels_shrunk prices inc levels inc' levels' trs :
  match_levels inc levels prices = Ok (inc', levels', trs) →
  NoDup prices → shrunk levels' levels.
Proof.
  intros E.
  cut (∃ a b c, match_levels inc levels prices = Ok (a, b, c) ∧
         (NoDup prices → shrunk b levels)).
  { intros (a & b & c & E' & H). rewrite E in E'. by simplify_eq. }
  clear. revert prices inc levels. apply match_levels_rect.
  - intros inc levels _ q l' Hl'. exists l'. split; [done|]. apply shrinks_refl.
  - intros inc levels p ps _ _ q l' Hl'. exists l'. split; [done|]. apply shrinks_refl.
  - intros inc levels p ps inc1 l1 trs inc2 levels3 trs' _ _ E E' IH Hnd q l' Hl'.
    apply NoDup_cons in Hnd as [Hnp Hnd].
    destruct (decide (p = q)) as [->|Hne].
    + destruct (match_levels_post_of _ _ _ _ _ _ E') as (_ & _ & Hframe & _).
      rewrite (Hframe q Hnp) in Hl'. by eapply shrunk_level_step.
    + destruct (IH Hnd q l' Hl') as (l & Hl & Hsh).
      rewrite lookup_level_step, decide_False in Hl by done. by exists l.
Qed.

Lemma elem_of_append_order levels p o q l b :
  append_order levels p o !! q = Some l → b ∈ l →
  (q = p ∧ b = o) ∨ (∃ l0, levels !! q = Some l0 ∧ b ∈ l0).
Proof.
  rewrite lookup_append_order. case_decide as Hp.
  - subst q. intros [= <-] Hb. apply elem_of_app in Hb as [Hb|Hb].
    + right. destruct (levels !! p) as [l0|]; simpl in Hb; [by eauto|].
      by apply elem_of_nil in Hb.
    + left. by apply list_elem_of_singleton in Hb.
  - intros Hl Hb. right. eauto.
Qed.

Lemma ids_ok_mono n m levels : n ≤ m → ids_ok n levels → ids_ok m levels.
Proof.
  intros Hle (Hs & Ha & Hb). split_and!; [done..|].
  intros p l b Hl Hin. destruct (Hb _ _ _ Hl Hin) as (i & ? & ?).
  exists i. split; [done|lia].
Qed.

Lemma ids_ok_append n levels p o :
  ids_ok n levels → Order.order_id o = Some (n + 1) →
  ids_ok (n + 1) (append_order levels p o).
Proof.
  intros (Hs & Ha & Hb) Ho. split_and!.
  - intros q l. rewrite lookup_append_order. case_decide as Hp; [|by apply Hs].
    subst q. intros [= <-]. apply StronglySorted_app_2.
    + intros x1 x2 Hx1 Hx2. apply list_elem_of_singleton in Hx2 as ->.
      destruct (levels !! p) as [l0|] eqn:El; simpl in Hx1;
        [|by apply elem_of_nil in Hx1].
      destruct (Hb _ _ _ El Hx1) as (i & Hi & Hle).
      unfold id_lt. rewrite Hi, Ho. lia.
    + destruct (levels !! p) as [l0|] eqn:El; simpl; [by eapply Hs|constructor].
    + repeat constructor.
  - intros p1 p2 l1 l2 b1 b2 Hl1 Hl2 Hb1 Hb2 Heq.
    destruct (elem_of_append_order _ _ _ _ _ _ Hl1 Hb1) as [[-> ->]|(l1' & Hl1' & Hb1')];
      destruct (elem_of_append_order _ _ _ _ _ _ Hl2 Hb2) as [[-> ->]|(l2' & Hl2' & Hb2')].
    + done.
    + destruct (Hb _ _ _ Hl2' Hb2') as (i & Hi & Hle). rewrite Ho, Hi in Heq.
      simplify_eq. lia.
    + destruct (Hb _ _ _ Hl1' Hb1') as (i & Hi & Hle). rewrite Ho, Hi in Heq.
      simplify_eq. lia.
    + by eapply (Ha p1 p2 l1' l2' b1 b2).
  - intros q l b Hl Hin.
    destruct (elem_of_append_order _ _ _ _ _ _ Hl Hin) as [[-> ->]|(l0 & Hl0 & Hb0)].
    + exists (n + 1). split; [done|lia].
    + destruct (Hb _ _ _ Hl0 Hb0) as (i & ? & ?). exists i. split; [done|lia].
Qed.

Lemma ids_inv_sides ty ob :
  ids_inv ob ↔
  ids_ok (OrderBook.order_id ob) (own_side ty ob) ∧
  ids_ok (OrderBook.order_id ob) (opposite_side ty ob).
Proof. unfold ids_inv. destruct ty; simpl; [done|]. split; intros [? ?]; done. Qed.

Lemma ids_inv_step ob now o ob' o' :
  ids_inv ob → process_order ob now o = Ok (ob', o') → ids_inv ob'.
Proof.
  intros Hinv E.
  apply (ids_inv_sides (Order.type o)) in Hinv as (Hown & Hopp).
  apply (ids_inv_sides (Order.type o)).
  destruct (decide (marketable ob o)) as [Hm|Hm].
  - destruct (process_order_matched ob now o Hm)
      as (ob2 & o2 & trs & E2 & El & Hpost & Hown' & _ & Hid).
    rewrite E in E2. simplify_eq. rewrite Hid, Hown'. split.
    + destruct (0 <? Order.quantity o2).
      * apply ids_ok_append; [done|]. destruct Hpost as [-> _]. done.
      * eapply ids_ok_mono; [|done]. lia.
    + apply (ids_ok_mono (OrderBook.order_id ob)); [lia|].
      eapply ids_ok_shrunk; [|done].
      eapply match_levels_shrunk; [done|]. apply sorted_spec.
  - rewrite process_order_rest in E by done. simplify_eq.
    change (Order.type o) with (Order.type (stamp ob now o)).
    rewrite own_side_rest_order, opposite_side_rest_order.
    rewrite own_side_advance, opposite_side_advance.
    replace (OrderBook.order_id (rest_order (advance ob) (stamp ob now o)))
      with (OrderBook.order_id ob + 1)
      by (unfold rest_order; by destruct (Order.type _)).
    split.
    + by apply ids_ok_append.
    + eapply ids_ok_mono; [|done]. lia.
Qed.

Lemma ids_inv_init : ids_inv OrderBook.init.
Proof.
  split; split_and!; simpl.
  - intros p l H. by rewrite lookup_empty in H.
  - intros p p' l l' b b' H. by rewrite lookup_empty in H.
  - intros p l b H. by rewrite lookup_empty in H.
  - intros p l H. by rewrite lookup_empty in H.
  - intros p p' l l' b b' H. by rewrite lookup_empty in H.
  - intros p l b H. by rewrite lookup_empty in H.
Qed.

Lemma ids_inv_reached orders :
  ∃ ob, process_orders OrderBook.init orders = Ok ob ∧ ids_inv ob.
Proof.
  apply (process_orders_invariant ids_inv (λ _, True)).
  - intros ob now o ob' o' Hinv _. by apply ids_inv_step.
  - apply ids_inv_init.
  - by apply Forall_forall.
Qed.

(** In the trades [trs], every trade against [b] comes after a trade
    against [a] that takes the whole quantity of [a]. *)
Definition served_before (trs : list Trade.t) (a b : Order.t) : Prop :=
  ∀ j tb, trs !! j = Some tb → Trade.book_order_id tb = Order.order_id b →
    ∃ i ta, (i < j)%nat ∧ trs !! i = Some ta ∧
            Trade.book_order_id ta = Order.order_id a ∧
            Trade.quantity ta = Order.quantity a.

(** Every trade of the inner loop but the last takes the whole quantity of
    its resting order: the loop goes on only while the incoming order has
    quantity left. *)
Lemma match_orders_full l : ∀ inc inc' l' trs i t b,
  match_orders inc l = (inc', l', trs) →
  trs !! i = Some t → (S i < length trs)%nat → l !! i = Some b →
  Trade.quantity t = Order.quantity b.
Proof.
  induction l as [|b0 rest IH]; intros inc inc' l' trs i t b H Ht Hlen Hb.
  - by rewrite lookup_nil in Hb.
  - destruct (decide (Order.quantity inc = 0)) as [Hz|Hnz].
    { rewrite match_orders_done in H by done. by simplify_eq. }
    rewrite match_orders_cons, match_step_eq in H by done.
    destruct (match_orders _ rest) as [[inc2 rest'] trs'] eqn:E.
    simplify_eq. destruct i as [|i]; simpl in *.
    + simplify_eq. simpl.
      destruct (decide (Order.quantity inc ≤ Order.quantity b)) as [Hle|Hgt]; [|lia].
      exfalso. rewrite match_orders_done in E by (simpl; lia).
      simplify_eq. simpl in Hlen. lia.
    + eapply IH; eauto. lia.
Qed.

(** The inner loop serves the orders of a level in the order of their ids. *)
Lemma match_orders_priority inc l inc' l' trs a b :
  match_orders inc l = (inc', l', trs) →
  StronglySorted id_lt l →
  a ∈ l → id_lt a b →
  ∀ j tb b0, trs !! j = Some tb → l !! j = Some b0 →
    Order.order_id b0 = Order.order_id b →
    ∃ i ta, (i < j)%nat ∧ trs !! i = Some ta ∧
            Trade.book_order_id ta = Order.order_id a ∧
            Trade.quantity ta = Order.quantity a.
Proof.
  intros E Hs Ha Hlt j tb b0 Hj Hb0 Hid.
  assert (Hfull := λ i t c, match_orders_full l inc inc' l' trs i t c E).
  apply match_orders_spec in E as (_ & _ & _ & E4).
  apply list_elem_of_lookup in Ha as [i Hi].
  assert (Hij : (i < j)%nat).
  { destruct (decide (i < j)%nat) as [?|Hge]; [done|]. exfalso.
    destruct (decide (i = j)) as [->|Hne].
    - simplify_eq. by apply id_lt_irrefl in Hlt.
    - assert (Hlt' : id_lt b0 a).
      { eapply (StronglySorted_lookup id_lt l j i); eauto. lia. }
      eapply (id_lt_asym a b); [done|].
      eapply id_lt_proper; [| |exact Hlt']; done. }
  assert (Hlen : (j < length trs)%nat) by (by eapply lookup_lt_Some).
  destruct (lookup_lt_is_Some_2 trs i) as [ta Hta]; [lia|].
  exists i, ta. split_and!; [done..| |].
  - destruct (Forall2_lookup_l _ _ _ _ _ E4 Hta) as (a' & Ha' & _ & _ & _ & T4).
    apply lookup_take_Some in Ha' as [Ha' _]. by simplify_eq.
  - eapply Hfull; eauto. lia.
Qed.

(** The outer loop: among two orders resting at one price, the one with
    the smaller id is served first. *)
Lemma match_levels_priority prices inc levels inc' levels' trs :
  match_levels inc levels prices = Ok (inc', levels', trs) →
  NoDup prices → ids_sorted levels → ids_apart levels →
  ∀ p l a b, levels !! p = Some l → a ∈ l → b ∈ l → id_lt a b →
    served_before trs a b.
Proof.
  intros E.
  cut (∃ x y z, match_levels inc levels prices = Ok (x, y, z) ∧
         (NoDup prices → ids_sorted levels → ids_apart levels →
          ∀ p l a b, levels !! p = Some l → a ∈ l → b ∈ l → id_lt a b →
            served_before z a b)).
  { intros (x & y & z & E' & H). rewrite E in E'. by simplify_eq. }
  clear. revert prices inc levels. apply match_levels_rect.
  - intros inc levels _ _ _ p l a b _ _ _ _ j tb Hj. by rewrite lookup_nil in Hj.
  - intros inc levels p0 ps _ _ _ _ p l a b _ _ _ _ j tb Hj. by rewrite lookup_nil in Hj.
  - intros inc levels p0 ps inc1 l1 trs inc2 levels3 trs' _ _ E E' IH
      Hnd Hs Ha p l a b Hl Hina Hinb Hlt j tb Hj Hid.
    apply NoDup_cons in Hnd as [Hnp Hnd].
    destruct (decide (j < length trs)%nat) as [Hjlt|Hjge].
    + rewrite lookup_app_l in Hj by done.
      destruct (match_orders_spec _ _ _ _ _ E) as (_ & _ & _ & E4).
      destruct (Forall2_lookup_l _ _ _ _ _ E4 Hj) as (b0 & Hb0 & _ & _ & _ & T4).
      apply lookup_take_Some in Hb0 as [Hb0 _].
      destruct (levels !! p0) as [l0|] eqn:El0; simpl in Hb0;
        [|by rewrite lookup_nil in Hb0].
      assert (p0 = p) as ->.
      { eapply (Ha p0 p l0 l b0 b); try done.
        - by eapply list_elem_of_lookup_2.
        - by rewrite <- T4. }
      rewrite El0 in Hl. injection Hl as ->. simpl in E.
      destruct (match_orders_priority _ _ _ _ _ a b E (Hs _ _ El0) Hina Hlt
                  j tb b0 Hj Hb0) as (i & ta & Hi & Hta & Tid & Tq).
      { by rewrite <- T4. }
      exists i, ta. split_and!; [done| |done..].
      rewrite lookup_app_l; [done|]. by eapply lookup_lt_Some.
    + rewrite lookup_app_r in Hj by lia.
      destruct (match_levels_post_of _ _ _ _ _ _ E') as (_ & _ & _ & _ & _ & Hag).
      rewrite Forall_forall in Hag.
      destruct (Hag tb) as (_ & _ & p2 & l2 & b2 & Hp2 & Hl2 & Hb2 & _ & T4).
      { by eapply list_elem_of_lookup_2. }
      assert (Hne : p0 ≠ p2) by (by intros ->).
      rewrite lookup_level_step, decide_False in Hl2 by done.
      assert (p2 = p) as ->.
      { eapply (Ha p2 p l2 l b2 b); try done. by rewrite <- T4. }
      assert (Hsh := shrunk_level_step levels p0 inc inc1 l1 trs E).
      assert (Hs1 : ids_sorted (level_step levels p0 l1)).
      { intros q l' Hl'. destruct (Hsh _ _ Hl') as (l0 & Hl0 & Hsh0).
        eapply shrinks_sorted; [done|]. by eapply Hs. }
      assert (Ha1 : ids_apart (level_step levels p0 l1)).
      { intros q1 q2 k1 k2 c1 c2 Hk1 Hk2 Hc1 Hc2 Heq.
        destruct (Hsh _ _ Hk1) as (k1' & Hk1' & Hsh1).
        destruct (Hsh _ _ Hk2) as (k2' & Hk2' & Hsh2).
        destruct (shrinks_elem_of _ _ _ Hsh1 Hc1) as (d1 & Hd1 & E1).
        destruct (shrinks_elem_of _ _ _ Hsh2 Hc2) as (d2 & Hd2 & E2).
        eapply (Ha q1 q2 k1' k2' d1 d2); try done.
        rewrite E1, E2 in Heq. done. }
      destruct (IH Hnd Hs1 Ha1 p l a b) with (j := (j - length trs)%nat) (tb := tb)
        as (i & ta & Hi & Hta & Tid & Tq); try done.
      { by rewrite lookup_level_step, decide_False. }
      exists (length trs + i)%nat, ta. split_and!; [lia| |done..].
      rewrite lookup_app_r by lia. rewrite <- Hta. f_equal. lia.
Qed.

(** * The specification, claim by claim *)

(** ** Concrete books and orders *)

(** The demonstration of the source file, with prices in hundredths. *)
Definition demo_orders : list (Z * Order.t) :=
  [(1, order BUY 1223 10); (2, order BUY 1231 20); (3, order SELL 1355 5);
   (4, order BUY 1223 5); (5, order BUY 1225 15); (6, order SELL 1331 5);
   (7, order BUY 1225 30); (8, order SELL 1331 5)].

(** The sell order that the demonstration submits last: it crosses two bid
    levels and rests with its remainder. *)
Definition demo_sell : Order.t := order SELL 1225 100.

(** A book with one offer of 5 units at 10. *)
Definition one_offer : OrderBook.t :=
  OrderBook.mk ∅ {[ 10 := [Order.set_order_id (Order.set_timestamp (order SELL 10 5) 1) 1] ]} [] 1.

Lemma one_offer_reached :
  process_orders OrderBook.init [(1, order SELL 10 5)] = Ok one_offer.
Proof. vm_compute. reflexivity. Qed.

(** The scenarios of the specification, run on the model. *)

(** Scenario A: two bid levels, one offer level, no trade. *)
Example scenario_A :
  ∃ ob,
    process_orders OrderBook.init
      [(1, order BUY 1223 10); (2, order BUY 1231 20); (3, order SELL 1355 5)] = Ok ob ∧
    Order.quantity <$> default [] (OrderBook.bids ob !! 1231) = [20] ∧
    Order.quantity <$> default [] (OrderBook.bids ob !! 1223) = [10] ∧
    Order.quantity <$> default [] (OrderBook.offers ob !! 1355) = [5] ∧
    OrderBook.trades ob = [].
Proof. eexists. split; [vm_compute; reflexivity|]. by vm_compute. Qed.

(** Scenario B: a sell of 20 at 1200 against two bids at 1225 takes 20 units
    from the older bid, at the price of that bid. *)
Example scenario_B :
  ∃ ob,
    process_orders OrderBook.init
      [(1, order BUY 1225 30); (2, order BUY 1225 15); (3, order SELL 1200 20)] = Ok ob ∧
    OrderBook.trades ob = [Trade.mk SELL 1225 20 (Some 3) (Some 1)] ∧
    Order.quantity <$> default [] (OrderBook.bids ob !! 1225) = [10; 15] ∧
    OrderBook.offers ob = ∅.
Proof. eexists. split; [vm_compute; reflexivity|]. by vm_compute. Qed.

(** Scenario C, the demonstration of the source file: the sell of 100 at
    1225 takes 20 at 1231, then 15 and 30 at 1225 (the older order first),
    and rests with 35 units as a new offer level at 1225. *)
Example scenario_C :
  ∃ ob,
    process_orders OrderBook.init (demo_orders ++ [(9, demo_sell)]) = Ok ob ∧
    OrderBook.trades ob =
      [Trade.mk SELL 1231 20 (Some 9) (Some 2);
       Trade.mk SELL 1225 15 (Some 9) (Some 5);
       Trade.mk SELL 1225 30 (Some 9) (Some 7)] ∧
    Order.quantity <$> default [] (OrderBook.offers ob !! 1225) = [35] ∧
    OrderBook.bids ob !! 1231 = None ∧ OrderBook.bids ob !! 1225 = None.
Proof. eexists. split; [vm_compute; reflexivity|]. by vm_compute. Qed.

(** A decidable proposition about concrete data, settled by evaluation. *)
Ltac by_evaluation := apply (bool_decide_unpack _); vm_compute; exact I.

(** ** Quantity conservation *)

(** C3: in every match step the executed quantity is the minimum of the two
    remaining quantities, both orders lose exactly that quantity and neither
    goes below 0; over a whole call to [process_order], which never raises,
    the incoming order's original quantity is its final remaining quantity
    plus the quantities of the trades the call put. *)
Theorem quantity_conservation :
  (∀ inc b,
     let '(t, inc', b') := match_step inc b in
     Trade.quantity t = Z.min (Order.quantity inc) (Order.quantity b) ∧
     Order.quantity inc' = Order.quantity inc - Trade.quantity t ∧
     Order.quantity b' = Order.quantity b - Trade.quantity t ∧
     0 ≤ Order.quantity inc' ∧ 0 ≤ Order.quantity b') ∧
  (∀ ob now o, ∃ ob' o' trs,
     process_order ob now o = Ok (ob', o') ∧
     OrderBook.trades ob' = OrderBook.trades ob ++ trs ∧
     Order.quantity o = Order.quantity o' + traded trs).
Proof.
  split.
  - intros inc b. rewrite match_step_eq. simpl. lia.
  - intros ob now o. destruct (decide (marketable ob o)) as [Hm|Hm].
    + destruct (process_order_matched ob now o Hm)
        as (ob' & o' & trs & E & _ & (_ & Hq & _) & _ & Ht & _).
      exists ob', o', trs. split_and!; done.
    + rewrite process_order_rest by done.
      eexists _, _, []. split; [done|]. split.
      * rewrite app_nil_r. unfold rest_order. by destruct (Order.type _).
      * simpl. lia.
Qed.

(** ** Routing *)

(** C4: [process_order] hands the stamped order to the matching routine
    exactly when the order is marketable (a BUY when the offer side is
    non-empty and its price is at least the smallest offer price, a SELL
    when the bid side is non-empty and its price is at most the largest bid
    price); otherwise it appends the order to the tail of the level at its
    limit price on its own side, a level that is created when absent, and
    touches neither the other side nor the trades. *)
Theorem routing ob now o :
  process_order ob now o =
    (if decide (marketable ob o)
     then process_match (advance ob) (stamp ob now o)
     else Ok (rest_order (advance ob) (stamp ob now o), stamp ob now o)) ∧
  let ty := Order.type o in
  let rested := rest_order (advance ob) (stamp ob now o) in
  own_side ty rested =
    <[Order.price o := default [] (own_side ty ob !! Order.price o) ++ [stamp ob now o]]>
      (own_side ty ob) ∧
  opposite_side ty rested = opposite_side ty ob ∧
  OrderBook.trades rested = OrderBook.trades ob.
Proof.
  split.
  - case_decide.
    + by apply process_order_marketable.
    + by apply process_order_rest.
  - cbv zeta.
    change (Order.type o) with (Order.type (stamp ob now o)).
    change (Order.price o) with (Order.price (stamp ob now o)).
    split_and!.
    + rewrite (own_side_rest_order (advance ob) (stamp ob now o)).
      rewrite own_side_advance. apply append_order_eq.
    + rewrite (opposite_side_rest_order (advance ob) (stamp ob now o)).
      apply opposite_side_advance.
    + unfold rest_order. by destruct (Order.type _).
Qed.

(** ** The remainder of a marketable order *)

(** C7: after the matching walk of a marketable order, an order left with a
    remaining quantity above 0 is appended to the level at its own limit
    price on its own side (the level is created when absent); an order left
    with no quantity is inserted nowhere: its own side is unchanged and the
    other side holds only orders that were there before the call. *)
Theorem remainder_rests ob now o :
  marketable ob o →
  ∃ ob' o',
    process_order ob now o = Ok (ob', o') ∧
    let ty := Order.type o in
    (0 < Order.quantity o' →
       Order.price o' = Order.price o ∧
       own_side ty ob' =
         <[Order.price o := default [] (own_side ty ob !! Order.price o) ++ [o']]>
           (own_side ty ob)) ∧
    (Order.quantity o' ≤ 0 →
       own_side ty ob' = own_side ty ob ∧
       ∀ p l' b', opposite_side ty ob' !! p = Some l' → b' ∈ l' →
         ∃ l b, opposite_side ty ob !! p = Some l ∧ b ∈ l ∧
                b' = Order.set_quantity b (Order.quantity b')).
Proof.
  intros Hm.
  destruct (process_order_matched ob now o Hm)
    as (ob' & o' & trs & E & _ & (Ho' & _ & _ & _ & Hel & _) & Hown & _).
  exists ob', o'. split; [done|]. simpl. split.
  - intros Hq. apply Z.ltb_lt in Hq. rewrite Hq in Hown. split.
    + rewrite Ho'. done.
    + rewrite Hown. apply append_order_eq.
  - intros Hq. apply Z.ltb_ge in Hq. rewrite Hq in Hown. split; [done|]. exact Hel.
Qed.

Lemma remainder_rests_witness :
  marketable one_offer (order BUY 10 8) ∧
  ∃ ob' o',
    process_order one_offer 2 (order BUY 10 8) = Ok (ob', o') ∧
    (0 < Order.quantity o' →
       Order.price o' = 10 ∧
       OrderBook.bids ob' = <[10 := [o']]> ∅) ∧
    (Order.quantity o' ≤ 0 →
       OrderBook.bids ob' = ∅ ∧
       ∀ p l' b', OrderBook.offers ob' !! p = Some l' → b' ∈ l' →
         ∃ l b, OrderBook.offers one_offer !! p = Some l ∧ b ∈ l ∧
                b' = Order.set_quantity b (Order.quantity b')).
Proof.
  split.
  - by_evaluation.
  - apply (remainder_rests one_offer 2 (order BUY 10 8)).
    by_evaluation.
Defined.

(** ** Orders of quantity 0 *)

(** C10: a marketable order of quantity 0 puts no trade, leaves both
    indices unchanged, rests nowhere and raises no error; it still takes a
    fresh order id. *)
Theorem zero_quantity_discarded ob now o :
  Order.quantity o = 0 →
  marketable ob o →
  ∃ ob' o',
    process_order ob now o = Ok (ob', o') ∧
    OrderBook.trades ob' = OrderBook.trades ob ∧
    OrderBook.bids ob' = OrderBook.bids ob ∧
    OrderBook.offers ob' = OrderBook.offers ob ∧
    OrderBook.order_id ob' = OrderBook.order_id ob + 1 ∧
    Order.order_id o' = Some (OrderBook.order_id ob + 1) ∧
    Order.quantity o' = 0.
Proof.
  intros Hq Hm.
  destruct (process_order_matched ob now o Hm)
    as (ob' & o' & trs & E & El & _ & Hown & Ht & Hid).
  rewrite match_levels_done in El by done. simplify_eq.
  exists ob', (stamp ob now o). split; [done|].
  change (Order.quantity (stamp ob now o)) with (Order.quantity o) in Hown.
  rewrite Hq in Hown. simpl in Hown.
  destruct (sides_eq (Order.type o) ob ob') as [Hb Ho]; [done..|].
  rewrite Ht, app_nil_r. split_and!; done.
Qed.

Lemma zero_quantity_discarded_witness :
  Order.quantity (order BUY 10 0) = 0 ∧
  marketable one_offer (order BUY 10 0) ∧
  ∃ ob' o',
    process_order one_offer 2 (order BUY 10 0) = Ok (ob', o') ∧
    OrderBook.trades ob' = OrderBook.trades one_offer ∧
    OrderBook.bids ob' = OrderBook.bids one_offer ∧
    OrderBook.offers ob' = OrderBook.offers one_offer ∧
    OrderBook.order_id ob' = OrderBook.order_id one_offer + 1 ∧
    Order.order_id o' = Some (OrderBook.order_id one_offer + 1) ∧
    Order.quantity o' = 0.
Proof.
  split; [reflexivity|]. split.
  - by_evaluation.
  - apply (zero_quantity_discarded one_offer 2 (order BUY 10 0)).
    + reflexivity.
    + by_evaluation.
Defined.

(** ** Which index a call mutates *)

(** C9, as stated, fails: a BUY of 8 units at 10 against a book whose only
    order is an offer of 5 units at 10 empties the offers index and rests
    its remainder in the bids index, so both indices differ after the call. *)
Lemma one_index_counterexample :
  ∃ ob' o',
    process_order one_offer 2 (order BUY 10 8) = Ok (ob', o') ∧
    OrderBook.bids ob' ≠ OrderBook.bids one_offer ∧
    OrderBook.offers ob' ≠ OrderBook.offers one_offer.
Proof.
  eexists _, _. split; [vm_compute; reflexivity|].
  split; intros H; apply (f_equal (λ m : levels_t, m !! 10)) in H;
    vm_compute in H; discriminate.
Qed.

(** C9, amended: a call on an order that is not marketable leaves the
    opposite index unchanged; a call on a marketable order changes its own
    index exactly by appending the remainder when the order is left with a
    remaining quantity above 0, and not at all otherwise.  So at most one
    index differs after the call unless the order is marketable and keeps a
    positive remainder. *)
Theorem one_index_unless_remainder ob now o :
  ∃ ob' o',
    process_order ob now o = Ok (ob', o') ∧
    let ty := Order.type o in
    (¬ marketable ob o → opposite_side ty ob' = opposite_side ty ob) ∧
    (marketable ob o →
       own_side ty ob' =
         (if 0 <? Order.quantity o'
          then append_order (own_side ty ob) (Order.price o) o'
          else own_side ty ob)) ∧
    (marketable ob o → 0 < Order.quantity o' →
       own_side ty ob' ≠ own_side ty ob) ∧
    (¬ marketable ob o ∨ Order.quantity o' ≤ 0 →
       OrderBook.bids ob' = OrderBook.bids ob ∨
       OrderBook.offers ob' = OrderBook.offers ob).
Proof.
  destruct (decide (marketable ob o)) as [Hm|Hm].
  - destruct (process_order_matched ob now o Hm)
      as (ob' & o' & trs & E & _ & _ & Hown & _).
    exists ob', o'. split; [done|]. cbv zeta. split_and!; [done|done| |].
    + intros _ Hq. apply Z.ltb_lt in Hq. rewrite Hq in Hown. rewrite Hown.
      apply append_order_ne.
    + intros [?|Hq]; [done|]. apply Z.ltb_ge in Hq. rewrite Hq in Hown.
      destruct (Order.type o); simpl in Hown; auto.
  - rewrite process_order_rest by done. eexists _, _. split; [done|].
    cbv zeta. change (Order.type o) with (Order.type (stamp ob now o)).
    assert (Hopp := opposite_side_rest_order (advance ob) (stamp ob now o)).
    rewrite opposite_side_advance in Hopp.
    split_and!; [done|done|done|]. intros _.
    destruct (Order.type (stamp ob now o)); simpl in Hopp; auto.
Qed.

(** ** Invalid input *)

(** C8, as stated, fails: an order with price 0 and quantity -5 is not
    rejected; the call returns and the order rests in the bids index with
    the price and quantity it was submitted with. *)
Lemma invalid_order_counterexample :
  ∃ ob' o',
    process_order OrderBook.init 1 (order BUY 0 (-5)) = Ok (ob', o') ∧
    OrderBook.bids ob' !! 0 = Some [o'] ∧
    Order.price o' = 0 ∧ Order.quantity o' = -5.
Proof. eexists _, _. split; [vm_compute; reflexivity|]. by vm_compute. Qed.

(** C8, amended: [process_order] does not validate its input.  For every
    order, whatever its price and quantity, the call raises no error and
    takes the next order id; an order that is not marketable rests at the
    tail of its own side's level with the price and quantity it was
    submitted with. *)
Theorem no_validation ob now o :
  ∃ ob' o',
    process_order ob now o = Ok (ob', o') ∧
    OrderBook.order_id ob' = OrderBook.order_id ob + 1 ∧
    Order.order_id o' = Some (OrderBook.order_id ob + 1) ∧
    (¬ marketable ob o →
       Order.price o' = Order.price o ∧ Order.quantity o' = Order.quantity o ∧
       own_side (Order.type o) ob' !! Order.price o =
         Some (default [] (own_side (Order.type o) ob !! Order.price o) ++ [o'])).
Proof.
  destruct (decide (marketable ob o)) as [Hm|Hm].
  - destruct (process_order_matched ob now o Hm)
      as (ob' & o' & trs & E & _ & (Ho' & _) & _ & _ & Hid).
    exists ob', o'. split_and!; [done|done| |done]. by rewrite Ho'.
  - rewrite process_order_rest by done. eexists _, _. split; [done|].
    split_and!.
    + unfold rest_order. by destruct (Order.type _).
    + done.
    + intros _. split_and!; [done|done|].
      change (Order.type o) with (Order.type (stamp ob now o)).
      change (Order.price o) with (Order.price (stamp ob now o)).
      rewrite (own_side_rest_order (advance ob) (stamp ob now o)).
      rewrite own_side_advance, lookup_append_order. by rewrite decide_True.
Qed.

(** ** No crossed book *)

(** C1: for every sequence of orders with positive price and positive
    quantity, the driver loop never raises and, after any number of the
    calls, [max_bid < min_offer] whenever both indices are non-empty. *)
Theorem never_crossed orders n :
  Forall (λ x, valid x.2) orders →
  ∃ ob,
    process_orders OrderBook.init (take n orders) = Ok ob ∧
    (OrderBook.bids ob ≠ ∅ → OrderBook.offers ob ≠ ∅ →
     lt_ext (max_bid ob) (min_offer ob)).
Proof.
  intros Hv. destruct (book_inv_reached (take n orders)) as (ob & E & _ & _ & Hu).
  { by apply Forall_take. }
  exists ob. split; [done|]. intros Hb Ho.
  destruct (min_offer_spec ob Ho) as (m & -> & Hm & _).
  destruct (max_bid_spec ob Hb) as [HM _]. simpl. by apply Hu.
Qed.

Lemma never_crossed_witness :
  Forall (λ x, valid x.2) (demo_orders ++ [(9, demo_sell)]) ∧
  ∃ ob,
    process_orders OrderBook.init (take 9 (demo_orders ++ [(9, demo_sell)])) = Ok ob ∧
    (OrderBook.bids ob ≠ ∅ → OrderBook.offers ob ≠ ∅ →
     lt_ext (max_bid ob) (min_offer ob)).
Proof.
  split.
  - by_evaluation.
  - apply (never_crossed (demo_orders ++ [(9, demo_sell)]) 9). by_evaluation.
Defined.

(** ** Trade records *)

(** C5: in a book reached by orders with positive price and positive
    quantity, every trade put by a call on such an order carries the
    incoming order's side, the limit price of the resting order it was
    matched against, a quantity above 0, the id given to the incoming
    order by the call and the id of that resting order. *)
Theorem trade_records orders now o :
  Forall (λ x, valid x.2) orders →
  valid o →
  ∃ ob ob' o' trs,
    process_orders OrderBook.init orders = Ok ob ∧
    process_order ob now o = Ok (ob', o') ∧
    OrderBook.trades ob' = OrderBook.trades ob ++ trs ∧
    Order.order_id o' = Some (OrderBook.order_id ob + 1) ∧
    Forall (λ t,
      Trade.type t = Order.type o ∧
      0 < Trade.quantity t ∧
      Trade.incoming_order_id t = Order.order_id o' ∧
      ∃ p l b, opposite_side (Order.type o) ob !! p = Some l ∧ b ∈ l ∧
               Trade.price t = Order.price b ∧
               Trade.book_order_id t = Order.order_id b) trs.
Proof.
  intros Hv [_ Hq].
  destruct (book_inv_reached orders Hv) as (ob & E & Hinv).
  apply (book_inv_sides (Order.type o)) in Hinv as (_ & Hopp & _).
  exists ob. destruct (decide (marketable ob o)) as [Hm|Hm].
  - destruct (process_order_matched ob now o Hm)
      as (ob' & o' & trs & E' & El & Hpost & _ & Ht & _).
    exists ob', o', trs. split_and!; [done..| |].
    + destruct Hpost as [-> _]. done.
    + destruct (match_levels_positive _ _ _ _ _ _ El) as (_ & _ & Hpos).
      { simpl. lia. }
      { by apply hygienic_positive. }
      destruct Hpost as (Ho' & _ & _ & _ & _ & Hag).
      apply Forall_forall. intros t Hin.
      rewrite Forall_forall in Hpos, Hag.
      destruct (Hag t Hin) as (T1 & T2 & p & l & b & _ & T3).
      split_and!; [done|by apply Hpos| |by eauto].
      rewrite T2, Ho'. done.
  - rewrite process_order_rest by done. eexists _, _, []. split_and!; [done..| | |].
    + rewrite app_nil_r. unfold rest_order. by destruct (Order.type _).
    + done.
    + constructor.
Qed.

Lemma trade_records_witness :
  Forall (λ x, valid x.2) demo_orders ∧
  valid demo_sell ∧
  ∃ ob ob' o' trs,
    process_orders OrderBook.init demo_orders = Ok ob ∧
    process_order ob 9 demo_sell = Ok (ob', o') ∧
    OrderBook.trades ob' = OrderBook.trades ob ++ trs ∧
    Order.order_id o' = Some (OrderBook.order_id ob + 1) ∧
    Forall (λ t,
      Trade.type t = SELL ∧
      0 < Trade.quantity t ∧
      Trade.incoming_order_id t = Order.order_id o' ∧
      ∃ p l b, OrderBook.bids ob !! p = Some l ∧ b ∈ l ∧
               Trade.price t = Order.price b ∧
               Trade.book_order_id t = Order.order_id b) trs.
Proof.
  split; [by_evaluation|]. split; [by_evaluation|].
  apply (trade_records demo_orders 9 demo_sell); by_evaluation.
Defined.

(** ** Level hygiene *)

(** C6: for every sequence of orders with positive price and positive
    quantity, after each call every price of either index maps to a
    non-empty list of orders that all have a quantity above 0.  A level is
    created by the first order that rests at its price (the level then
    holds that order alone), and a level that a call removes had every one
    of its orders filled completely by a trade of that call. *)
Theorem level_hygiene orders now o :
  Forall (λ x, valid x.2) orders →
  valid o →
  ∃ ob ob' o' trs,
    process_orders OrderBook.init orders = Ok ob ∧
    process_order ob now o = Ok (ob', o') ∧
    process_orders OrderBook.init (orders ++ [(now, o)]) = Ok ob' ∧
    OrderBook.trades ob' = OrderBook.trades ob ++ trs ∧
    hygienic (OrderBook.bids ob') ∧ hygienic (OrderBook.offers ob') ∧
    let ty := Order.type o in
    own_side ty ob' !! Order.price o =
      (if decide (¬ marketable ob o ∨ 0 < Order.quantity o')
       then Some (default [] (own_side ty ob !! Order.price o) ++ [o'])
       else own_side ty ob !! Order.price o) ∧
    (∀ p l, opposite_side ty ob !! p = Some l →
            opposite_side ty ob' !! p = None → Forall (fills trs) l).
Proof.
  intros Hv Ho.
  destruct (book_inv_reached orders Hv) as (ob & E & Hinv).
  destruct (process_order_total ob now o) as (ob' & o' & E').
  destruct (book_inv_step _ _ _ _ _ Hinv Ho E') as (Hb' & Ho' & _).
  apply (book_inv_sides (Order.type o)) in Hinv as (_ & Hopp & _).
  destruct (decide (marketable ob o)) as [Hm|Hm].
  - destruct (process_order_matched ob now o Hm)
      as (ob2 & o2 & trs & E2 & El & Hpost & Hown & Ht & _).
    rewrite E' in E2. simplify_eq.
    exists ob, ob2, o2, trs. split_and!; [done|done| |done..|].
    { by eapply process_orders_app. }
    cbv zeta. split.
    + rewrite Hown. destruct (0 <? Order.quantity o2) eqn:Hq.
      * apply Z.ltb_lt in Hq. rewrite decide_True by auto.
        rewrite lookup_append_order. by rewrite decide_True.
      * apply Z.ltb_ge in Hq. rewrite decide_False; [done|]. intros [?|?]; [done|lia].
    + destruct (sorted_spec (opposite_side (Order.type o) ob) (Order.type o))
        as (Hnd & _).
      apply (match_levels_removed _ _ _ _ _ _ El Hnd). by apply hygienic_positive.
  - rewrite process_order_rest in E' by done. simplify_eq.
    eexists ob, _, _, []. split_and!; [done| | | |done|done|].
    { by apply process_order_rest. }
    { eapply process_orders_app; [done|]. by apply process_order_rest. }
    { rewrite app_nil_r. unfold rest_order. by destruct (Order.type _). }
    cbv zeta. split.
    + rewrite decide_True by auto.
      change (Order.type o) with (Order.type (stamp ob now o)).
      change (Order.price o) with (Order.price (stamp ob now o)).
      rewrite own_side_rest_order, own_side_advance, lookup_append_order.
      by rewrite decide_True.
    + intros p l Hl Hn.
      change (Order.type o) with (Order.type (stamp ob now o)) in Hn.
      rewrite opposite_side_rest_order, opposite_side_advance in Hn.
      simpl in Hn. congruence.
Qed.

Lemma level_hygiene_witness :
  Forall (λ x, valid x.2) demo_orders ∧
  valid demo_sell ∧
  ∃ ob ob' o' trs,
    process_orders OrderBook.init demo_orders = Ok ob ∧
    process_order ob 9 demo_sell = Ok (ob', o') ∧
    process_orders OrderBook.init (demo_orders ++ [(9, demo_sell)]) = Ok ob' ∧
    OrderBook.trades ob' = OrderBook.trades ob ++ trs ∧
    hygienic (OrderBook.bids ob') ∧ hygienic (OrderBook.offers ob') ∧
    OrderBook.offers ob' !! 1225 =
      (if decide (¬ marketable ob demo_sell ∨ 0 < Order.quantity o')
       then Some (default [] (OrderBook.offers ob !! 1225) ++ [o'])
       else OrderBook.offers ob !! 1225) ∧
    (∀ p l, OrderBook.bids ob !! p = Some l →
            OrderBook.bids ob' !! p = None → Forall (fills trs) l).
Proof.
  split; [by_evaluation|]. split; [by_evaluation|].
  apply (level_hygiene demo_orders 9 demo_sell); by_evaluation.
Defined.

(** ** Price-time priority *)

(** C2: in a book reached by any sequence of calls, and after one more
    call, every level lists its orders by increasing order id (orders are
    appended at the tail and compaction keeps the order of the survivors);
    and of two orders resting at one price on the side that the incoming
    order is matched against, the one with the smaller id is served first:
    every trade of the call against the later order comes after a trade of
    the call that takes the whole quantity of the earlier one. *)
Theorem price_time_priority orders now o :
  ∃ ob ob' o' trs,
    process_orders OrderBook.init orders = Ok ob ∧
    process_order ob now o = Ok (ob', o') ∧
    OrderBook.trades ob' = OrderBook.trades ob ++ trs ∧
    ids_sorted (OrderBook.bids ob) ∧ ids_sorted (OrderBook.offers ob) ∧
    ids_sorted (OrderBook.bids ob') ∧ ids_sorted (OrderBook.offers ob') ∧
    ∀ p l a b,
      opposite_side (Order.type o) ob !! p = Some l →
      a ∈ l → b ∈ l → id_lt a b → served_before trs a b.
Proof.
  destruct (ids_inv_reached orders) as (ob & E & Hinv).
  destruct (process_order_total ob now o) as (ob' & o' & E').
  assert (Hinv' := ids_inv_step _ _ _ _ _ Hinv E').
  destruct Hinv as [(Hb & _) (Ho & _)]. destruct Hinv' as [(Hb' & _) (Ho' & _)].
  destruct (decide (marketable ob o)) as [Hm|Hm].
  - destruct (process_order_matched ob now o Hm)
      as (ob2 & o2 & trs & E2 & El & _ & _ & Ht & _).
    rewrite E' in E2. simplify_eq.
    exists ob, ob2, o2, trs. split_and!; [done..|].
    destruct (ids_inv_reached orders) as (ob1 & E1 & Hinv1).
    rewrite E in E1. simplify_eq.
    apply (ids_inv_sides (Order.type o)) in Hinv1 as (_ & Hs & Ha & _).
    apply (match_levels_priority _ _ _ _ _ _ El); [apply sorted_spec|done..].
  - rewrite process_order_rest in E' by done. simplify_eq.
    eexists ob, _, _, []. split_and!; [done| | |done..|].
    + by apply process_order_rest.
    + rewrite app_nil_r. unfold rest_order. by destruct (Order.type _).
    + intros p l a b _ _ _ _ j tb Hj. by rewrite lookup_nil in Hj.
Qed.

(** * Further properties of the book *)

(** ** Where an order rests *)

(** The other side. *)
Definition other (ty : Type_) : Type_ :=
  match ty with
  | BUY => SELL
  | SELL => BUY
  end.

(** Every order of the index rests at the level of its own limit price and
    has the type of the index. *)
Definition keyed (ty : Type_) (levels : levels_t) : Prop :=
  ∀ p l b, levels !! p = Some l → b ∈ l → Order.price b = p ∧ Order.type b = ty.

Definition keyed_inv (ob : OrderBook.t) : Prop :=
  keyed BUY (OrderBook.bids ob) ∧ keyed SELL (OrderBook.offers ob).

Lemma keyed_inv_sides ty ob :
  keyed_inv ob ↔
  keyed ty (own_side ty ob) ∧ keyed (other ty) (opposite_side ty ob).
Proof. unfold keyed_inv. destruct ty; simpl; [done|]. split; intros [? ?]; done. Qed.

Lemma keyed_shrunk ty levels' levels :
  shrunk levels' levels → keyed ty levels → keyed ty levels'.
Proof.
  intros Hsh Hk p l' b' Hl' Hb'. destruct (Hsh _ _ Hl') as (l & Hl & Hshl).
  destruct (shrinks_elem_of _ _ _ Hshl Hb') as (b & Hb & Heq).
  rewrite Heq. simpl. by eapply Hk.
Qed.

Lemma keyed_append ty levels o :
  keyed ty levels → Order.type o = ty →
  keyed ty (append_order levels (Order.price o) o).
Proof.
  intros Hk Ho p l b Hl Hb.
  destruct (elem_of_append_order _ _ _ _ _ _ Hl Hb) as [[-> ->]|(l0 & Hl0 & Hb0)];
    [done|by eapply Hk].
Qed.

Lemma keyed_inv_step ob now o ob' o' :
  keyed_inv ob → process_order ob now o = Ok (ob', o') → keyed_inv ob'.
Proof.
  intros Hinv E.
  apply (keyed_inv_sides (Order.type o)) in Hinv as (Hown & Hopp).
  apply (keyed_inv_sides (Order.type o)).
  destruct (decide (marketable ob o)) as [Hm|Hm].
  - destruct (process_order_matched ob now o Hm)
      as (ob2 & o2 & trs & E2 & El & Hpost & Hown' & _).
    rewrite E in E2. simplify_eq. rewrite Hown'. split.
    + destruct (0 <? Order.quantity o2); [|done].
      destruct Hpost as [Ho2 _].
      replace (Order.price o) with (Order.price o2) by (by rewrite Ho2).
      apply keyed_append; [done|]. by rewrite Ho2.
    + eapply keyed_shrunk; [|done].
      eapply match_levels_shrunk; [done|]. apply sorted_spec.
  - rewrite process_order_rest in E by done. simplify_eq.
    change (Order.type o) with (Order.type (stamp ob now o)).
    rewrite own_side_rest_order, opposite_side_rest_order.
    rewrite own_side_advance, opposite_side_advance. split; [|done].
    by apply keyed_append.
Qed.

Lemma keyed_inv_init : keyed_inv OrderBook.init.
Proof. split; intros p l b H; simpl in H; by rewrite lookup_empty in H. Qed.

Lemma keyed_inv_reached orders :
  ∃ ob, process_orders OrderBook.init orders = Ok ob ∧ keyed_inv ob.
Proof.
  apply (process_orders_invariant keyed_inv (λ _, True)).
  - intros ob now o ob' o' Hinv _. by apply keyed_inv_step.
  - apply keyed_inv_init.
  - by apply Forall_forall.
Qed.

(** X1: in a book reached by any sequence of calls, every resting order sits
    in the index of its own type, at the level whose key is its own limit
    price. *)
Theorem resting_orders_keyed orders :
  ∃ ob,
    process_orders OrderBook.init orders = Ok ob ∧
    (∀ p l b, OrderBook.bids ob !! p = Some l → b ∈ l →
       Order.price b = p ∧ Order.type b = BUY) ∧
    (∀ p l b, OrderBook.offers ob !! p = Some l → b ∈ l →
       Order.price b = p ∧ Order.type b = SELL).
Proof.
  destruct (keyed_inv_reached orders) as (ob & E & Hb & Ho). by exists ob.
Qed.

(** ** Prices of the trades of one call *)

Lemma StronglySorted_const {A} (R : relation A) `{!Reflexive R} (x : A) l :
  Forall (λ y, y = x) l → StronglySorted R l.
Proof.
  induction 1 as [|y l -> Hl IH]; constructor; [done|].
  eapply Forall_impl; [exact Hl|]. by intros z ->.
Qed.

Global Instance walks_before_refl ty : Reflexive (walks_before ty).
Proof. intros x. destruct ty; unfold walks_before, flip; lia. Qed.

(** The trades of the inner loop are at the prices of orders of the level. *)
Lemma match_orders_trade_prices inc l inc' l' trs :
  match_orders inc l = (inc', l', trs) →
  Forall (λ t, ∃ b, b ∈ l ∧ Trade.price t = Order.price b) trs.
Proof.
  intros E. apply match_orders_spec in E as (_ & _ & _ & E4).
  apply Forall_forall. intros t Ht. apply list_elem_of_lookup in Ht as [i Hi].
  destruct (Forall2_lookup_l _ _ _ _ _ E4 Hi) as (b & Hb & _ & T2 & _).
  apply lookup_take_Some in Hb as [Hb _]. exists b. split; [|done].
  by eapply list_elem_of_lookup_2.
Qed.

(** In an index whose orders rest at their own price, the trades of the
    outer loop are at walked prices that the incoming order crosses, in the
    order of the walk. *)
Lemma match_levels_trade_prices ty prices inc levels inc' levels' trs :
  match_levels inc levels prices = Ok (inc', levels', trs) →
  keyed ty levels →
  StronglySorted (walks_before (Order.type inc)) prices →
  Forall (λ t, price_doesnt_match inc (Trade.price t) = false ∧
               Trade.price t ∈ prices) trs ∧
  StronglySorted (walks_before (Order.type inc)) (Trade.price <$> trs).
Proof.
  intros E.
  cut (∃ x y z, match_levels inc levels prices = Ok (x, y, z) ∧
         (keyed ty levels →
          StronglySorted (walks_before (Order.type inc)) prices →
          Forall (λ t, price_doesnt_match inc (Trade.price t) = false ∧
                       Trade.price t ∈ prices) z ∧
          StronglySorted (walks_before (Order.type inc)) (Trade.price <$> z))).
  { intros (x & y & z & E' & H). rewrite E in E'. by simplify_eq. }
  clear. revert prices inc levels. apply match_levels_rect.
  - intros inc levels _ _. split; constructor.
  - intros inc levels p ps _ _ _. split; constructor.
  - intros inc levels p ps inc1 l1 trs inc2 levels3 trs' _ Hp E _ IH Hk Hs.
    destruct (match_orders_spec _ _ _ _ _ E) as (E1 & _).
    assert (Hty : Order.type inc1 = Order.type inc) by (by rewrite E1).
    assert (Hpr : Order.price inc1 = Order.price inc) by (by rewrite E1).
    apply StronglySorted_inv in Hs as [Hs Hps].
    rewrite Hty in IH.
    destruct IH as [IH1 IH2]; [|done|].
    { eapply keyed_shrunk; [|done]. by eapply shrunk_level_step. }
    assert (Hlevel : Forall (λ t, Trade.price t = p) trs).
    { eapply Forall_impl; [by eapply match_orders_trade_prices|].
      intros t (b & Hb & ->). simpl in Hb.
      destruct (levels !! p) as [l|] eqn:El; simpl in Hb;
        [|by apply elem_of_nil in Hb].
      by apply (Hk _ _ _ El Hb). }
    split.
    + apply Forall_app. split.
      * eapply Forall_impl; [exact Hlevel|]. intros t ->. split; [done|left].
      * eapply Forall_impl; [exact IH1|]. intros t [T1 T2]. split; [|by right].
        unfold price_doesnt_match in *. by rewrite <- Hty, <- Hpr.
    + rewrite fmap_app. apply StronglySorted_app_2.
      * intros x1 x2 Hx1 Hx2.
        apply list_elem_of_fmap in Hx1 as (t1 & -> & Ht1).
        apply list_elem_of_fmap in Hx2 as (t2 & -> & Ht2).
        rewrite Forall_forall in Hlevel. rewrite Forall_forall in IH1.
        rewrite Forall_forall in Hps.
        rewrite (Hlevel _ Ht1). apply Hps. by apply IH1.
      * apply (StronglySorted_const _ p). by apply Forall_fmap.
      * done.
Qed.

(** The outer loop leaves alone every level whose price the incoming order
    does not cross. *)
Lemma match_levels_beyond prices inc levels inc' levels' trs q :
  match_levels inc levels prices = Ok (inc', levels', trs) →
  price_doesnt_match inc q = true → levels' !! q = levels !! q.
Proof.
  intros E.
  cut (∃ x y z, match_levels inc levels prices = Ok (x, y, z) ∧
         (price_doesnt_match inc q = true → y !! q = levels !! q)).
  { intros (x & y & z & E' & H). rewrite E in E'. by simplify_eq. }
  clear. revert prices inc levels. apply match_levels_rect; [done..|].
  intros inc levels p ps inc1 l1 trs inc2 levels3 trs' _ Hp E _ IH Hq.
  destruct (match_orders_spec _ _ _ _ _ E) as (E1 & _).
  rewrite IH.
  - rewrite lookup_level_step, decide_False; [done|]. intros ->. congruence.
  - unfold price_doesnt_match in *. rewrite E1. done.
Qed.

(** The trades that a call puts, with the book before and after. *)
Lemma process_order_trades ob now o :
  ∃ ob' o' trs,
    process_order ob now o = Ok (ob', o') ∧
    OrderBook.trades ob' = OrderBook.trades ob ++ trs ∧
    (marketable ob o → matched ob now o ob' o' trs) ∧
    (¬ marketable ob o →
       trs = [] ∧ o' = stamp ob now o ∧
       ob' = rest_order (advance ob) (stamp ob now o)).
Proof.
  destruct (decide (marketable ob o)) as [Hm|Hm].
  - destruct (process_order_matched ob now o Hm) as (ob' & o' & trs & E & H).
    exists ob', o', trs. split_and!; [done| |done|done].
    by destruct H as (_ & _ & _ & Ht & _).
  - rewrite process_order_rest by done. eexists _, _, []. split_and!; [done| |done|done].
    rewrite app_nil_r. unfold rest_order. by destruct (Order.type _).
Qed.

(** X2: in a book reached by any sequence of calls, no trade of a call is at
    a price beyond the incoming order's limit: a BUY never pays more than
    its limit price, a SELL never receives less. *)
Theorem trades_within_limit orders now o :
  ∃ ob ob' o' trs,
    process_orders OrderBook.init orders = Ok ob ∧
    process_order ob now o = Ok (ob', o') ∧
    OrderBook.trades ob' = OrderBook.trades ob ++ trs ∧
    Forall (λ t, match Order.type o with
                 | BUY => Trade.price t ≤ Order.price o
                 | SELL => Order.price o ≤ Trade.price t
                 end) trs.
Proof.
  destruct (keyed_inv_reached orders) as (ob & E & Hinv).
  apply (keyed_inv_sides (Order.type o)) in Hinv as (_ & Hopp).
  destruct (process_order_trades ob now o) as (ob' & o' & trs & E' & Ht & Hm & Hn).
  exists ob, ob', o', trs. split_and!; [done..|].
  destruct (decide (marketable ob o)) as [H|H].
  - destruct (Hm H) as (El & _).
    destruct (match_levels_trade_prices _ _ _ _ _ _ _ El Hopp) as [Hf _].
    { apply sorted_spec. }
    eapply Forall_impl; [exact Hf|]. intros t [Hp _].
    unfold price_doesnt_match in Hp.
    change (Order.type (stamp ob now o)) with (Order.type o) in Hp.
    change (Order.price (stamp ob now o)) with (Order.price o) in Hp.
    destruct (Order.type o); apply Z.ltb_ge in Hp; lia.
  - destruct (Hn H) as (-> & _). constructor.
Qed.

(** X3: in a book reached by any sequence of calls, the trades of a call
    come best price first: their prices never decrease for a BUY and never
    increase for a SELL. *)
Theorem price_priority orders now o :
  ∃ ob ob' o' trs,
    process_orders OrderBook.init orders = Ok ob ∧
    process_order ob now o = Ok (ob', o') ∧
    OrderBook.trades ob' = OrderBook.trades ob ++ trs ∧
    StronglySorted (walks_before (Order.type o)) (Trade.price <$> trs).
Proof.
  destruct (keyed_inv_reached orders) as (ob & E & Hinv).
  apply (keyed_inv_sides (Order.type o)) in Hinv as (_ & Hopp).
  destruct (process_order_trades ob now o) as (ob' & o' & trs & E' & Ht & Hm & Hn).
  exists ob, ob', o', trs. split_and!; [done..|].
  destruct (decide (marketable ob o)) as [H|H].
  - destruct (Hm H) as (El & _).
    destruct (match_levels_trade_prices _ _ _ _ _ _ _ El Hopp) as [_ Hs]; [|done].
    apply sorted_spec.
  - destruct (Hn H) as (-> & _). constructor.
Qed.

(** X4: a call touches nothing it has no business with, in any book: the
    levels of the opposite index at prices that the incoming order does not
    cross are unchanged, the levels of its own index at other prices are
    unchanged, and the level at its own price keeps its orders, with at
    most the incoming order added at the tail. *)
Theorem untouched_levels ob now o :
  ∃ ob' o',
    process_order ob now o = Ok (ob', o') ∧
    let ty := Order.type o in
    (∀ q, price_doesnt_match o q = true →
       opposite_side ty ob' !! q = opposite_side ty ob !! q) ∧
    (∀ q, q ≠ Order.price o → own_side ty ob' !! q = own_side ty ob !! q) ∧
    (own_side ty ob' !! Order.price o = own_side ty ob !! Order.price o ∨
     own_side ty ob' !! Order.price o =
       Some (default [] (own_side ty ob !! Order.price o) ++ [o'])).
Proof.
  destruct (process_order_trades ob now o) as (ob' & o' & trs & E' & _ & Hm & Hn).
  exists ob', o'. split; [done|]. cbv zeta.
  destruct (decide (marketable ob o)) as [H|H].
  - destruct (Hm H) as (El & _ & Hown & _). split_and!.
    + intros q Hq. by apply (match_levels_beyond _ _ _ _ _ _ q El).
    + intros q Hq. rewrite Hown. destruct (0 <? Order.quantity o'); [|done].
      rewrite lookup_append_order. by rewrite decide_False.
    + rewrite Hown. destruct (0 <? Order.quantity o'); [right|by left].
      rewrite lookup_append_order. by rewrite decide_True.
  - destruct (Hn H) as (_ & -> & ->).
    change (Order.type o) with (Order.type (stamp ob now o)).
    change (Order.price o) with (Order.price (stamp ob now o)).
    rewrite own_side_rest_order, opposite_side_rest_order.
    rewrite own_side_advance, opposite_side_advance. split_and!.
    + done.
    + intros q Hq. rewrite lookup_append_order. by rewrite decide_False.
    + right. rewrite lookup_append_order. by rewrite decide_True.
Qed.

(** ** Order ids *)

Lemma process_order_stamped ob now o ob' o' :
  process_order ob now o = Ok (ob', o') →
  OrderBook.order_id ob' = OrderBook.order_id ob + 1 ∧
  o' = Order.set_quantity (stamp ob now o) (Order.quantity o').
Proof.
  intros E.
  destruct (process_order_trades ob now o) as (ob2 & o2 & trs & E' & _ & Hm & Hn).
  rewrite E in E'. simplify_eq.
  destruct (decide (marketable ob o)) as [H|H].
  - destruct (Hm H) as (_ & (Ho & _) & _ & _ & Hid). done.
  - destruct (Hn H) as (_ & -> & ->). split.
    + unfold rest_order. by destruct (Order.type _).
    + by rewrite set_quantity_id.
Qed.

Lemma order_id_reached orders :
  ∃ ob, process_orders OrderBook.init orders = Ok ob ∧
        OrderBook.order_id ob = Z.of_nat (length orders).
Proof.
  induction orders as [|[now o] orders IH] using rev_ind.
  - by exists OrderBook.init.
  - destruct IH as (ob & E & Hid).
    destruct (process_order_total ob now o) as (ob' & o' & E').
    exists ob'. split; [by eapply process_orders_app|].
    destruct (process_order_stamped _ _ _ _ _ E') as [-> _].
    rewrite length_app. simpl. lia.
Qed.

(** X5: the book numbers the orders it receives 1, 2, 3, ...: after any
    sequence of calls the counter is the number of calls made, and the next
    order leaves its call with the next number and with the clock reading
    of the call, whatever id and timestamp its submitter had put. *)
Theorem order_ids_count_calls orders now o :
  ∃ ob ob' o',
    process_orders OrderBook.init orders = Ok ob ∧
    process_order ob now o = Ok (ob', o') ∧
    OrderBook.order_id ob = Z.of_nat (length orders) ∧
    OrderBook.order_id ob' = Z.of_nat (length orders) + 1 ∧
    Order.order_id o' = Some (Z.of_nat (length orders) + 1) ∧
    Order.timestamp o' = Some now.
Proof.
  destruct (order_id_reached orders) as (ob & E & Hid).
  destruct (process_order_total ob now o) as (ob' & o' & E').
  destruct (process_order_stamped _ _ _ _ _ E') as [Hid' Ho'].
  exists ob, ob', o'. split_and!; [done..|lia| |].
  - rewrite Ho'. simpl. by rewrite Hid.
  - rewrite Ho'. done.
Qed.

(** No id rests in both indices. *)
Definition sides_apart (own opp : levels_t) : Prop :=
  ∀ p l b p' l' b', own !! p = Some l → b ∈ l → opp !! p' = Some l' → b' ∈ l' →
    Order.order_id b ≠ Order.order_id b'.

Lemma sides_apart_sym own opp : sides_apart own opp → sides_apart opp own.
Proof. intros H p l b p' l' b' Hl Hb Hl' Hb' E. by eapply (H p' l' b' p l b). Qed.

Definition ids_inv2 (ob : OrderBook.t) : Prop :=
  ids_inv ob ∧ sides_apart (OrderBook.bids ob) (OrderBook.offers ob).

Lemma sides_apart_sides ty ob :
  sides_apart (OrderBook.bids ob) (OrderBook.offers ob) ↔
  sides_apart (own_side ty ob) (opposite_side ty ob).
Proof. destruct ty; simpl; [done|]. split; apply sides_apart_sym. Qed.

Lemma sides_apart_shrunk own opp opp' :
  shrunk opp' opp → sides_apart own opp → sides_apart own opp'.
Proof.
  intros Hsh H p l b p' l' b' Hl Hb Hl' Hb' E.
  destruct (Hsh _ _ Hl') as (l0 & Hl0 & Hshl).
  destruct (shrinks_elem_of _ _ _ Hshl Hb') as (b0 & Hb0 & Heq).
  eapply (H p l b p' l0 b0); try done. rewrite E, Heq. done.
Qed.

Lemma sides_apart_append n own opp p o :
  ids_below n opp → Order.order_id o = Some (n + 1) →
  sides_apart own opp → sides_apart (append_order own p o) opp.
Proof.
  intros Hb Ho H q l b q' l' b' Hl Hin Hl' Hin' E.
  destruct (elem_of_append_order _ _ _ _ _ _ Hl Hin) as [[-> ->]|(l0 & Hl0 & Hb0)].
  - destruct (Hb _ _ _ Hl' Hin') as (i & Hi & Hle). rewrite Ho, Hi in E.
    simplify_eq. lia.
  - by eapply (H q l0 b q' l' b').
Qed.

Lemma ids_inv2_step ob now o ob' o' :
  ids_inv2 ob → process_order ob now o = Ok (ob', o') → ids_inv2 ob'.
Proof.
  intros [Hinv Hap] E. split; [by eapply ids_inv_step|].
  apply (sides_apart_sides (Order.type o)) in Hap.
  apply (sides_apart_sides (Order.type o)).
  apply (ids_inv_sides (Order.type o)) in Hinv as (_ & _ & _ & Hbelow).
  destruct (process_order_stamped _ _ _ _ _ E) as [_ Ho'].
  assert (Hid : Order.order_id o' = Some (OrderBook.order_id ob + 1)).
  { by rewrite Ho'. }
  destruct (process_order_trades ob now o) as (ob2 & o2 & trs & E' & _ & Hm & Hn).
  rewrite E in E'. simplify_eq.
  destruct (decide (marketable ob o)) as [H|H].
  - destruct (Hm H) as (El & _ & Hown & _).
    assert (Hsh : shrunk (opposite_side (Order.type o) ob2)
                         (opposite_side (Order.type o) ob)).
    { eapply match_levels_shrunk; [done|]. apply sorted_spec. }
    rewrite Hown. destruct (0 <? Order.quantity o2).
    + apply (sides_apart_append (OrderBook.order_id ob)); [|done|].
      * intros p l' b' Hl' Hb'. destruct (Hsh _ _ Hl') as (l0 & Hl0 & Hshl).
        destruct (shrinks_elem_of _ _ _ Hshl Hb') as (b0 & Hb0 & Heq).
        destruct (Hbelow _ _ _ Hl0 Hb0) as (i & Hi & Hle).
        exists i. split; [|done]. by rewrite Heq.
      * by eapply sides_apart_shrunk.
    + by eapply sides_apart_shrunk.
  - destruct (Hn H) as (_ & -> & ->).
    change (Order.type o) with (Order.type (stamp ob now o)).
    rewrite own_side_rest_order, opposite_side_rest_order.
    rewrite own_side_advance, opposite_side_advance.
    by apply (sides_apart_append (OrderBook.order_id ob)).
Qed.

Lemma ids_inv2_reached orders :
  ∃ ob, process_orders OrderBook.init orders = Ok ob ∧ ids_inv2 ob.
Proof.
  apply (process_orders_invariant ids_inv2 (λ _, True)).
  - intros ob now o ob' o' Hinv _. by eapply ids_inv2_step.
  - split; [apply ids_inv_init|].
    intros p l b p' l' b' H. simpl in H. by rewrite lookup_empty in H.
  - by apply Forall_forall.
Qed.

Lemma sorted_ids_injective l i j a b :
  StronglySorted id_lt l → l !! i = Some a → l !! j = Some b →
  Order.order_id a = Order.order_id b → i = j.
Proof.
  intros Hs Hi Hj E.
  destruct (Nat.lt_trichotomy i j) as [Hlt|[?|Hlt]]; [|done|].
  - exfalso. by apply (id_lt_irrefl a b (StronglySorted_lookup _ _ _ _ _ _ Hs Hi Hj Hlt)).
  - exfalso. by apply (id_lt_irrefl b a (StronglySorted_lookup _ _ _ _ _ _ Hs Hj Hi Hlt)).
Qed.

(** X6: in a book reached by any sequence of calls, no two resting orders
    have the same id: two places of the book (index, price, position in
    the level) that hold orders with equal ids are the same place.  Every
    resting order has an id, and it is at most the counter. *)
Theorem resting_ids_unique orders :
  ∃ ob,
    process_orders OrderBook.init orders = Ok ob ∧
    (∀ s1 s2 p1 p2 l1 l2 i1 i2 b1 b2,
       own_side s1 ob !! p1 = Some l1 → l1 !! i1 = Some b1 →
       own_side s2 ob !! p2 = Some l2 → l2 !! i2 = Some b2 →
       Order.order_id b1 = Order.order_id b2 →
       s1 = s2 ∧ p1 = p2 ∧ i1 = i2) ∧
    (∀ s p l b, own_side s ob !! p = Some l → b ∈ l →
       ∃ i, Order.order_id b = Some i ∧ i ≤ OrderBook.order_id ob).
Proof.
  destruct (ids_inv2_reached orders) as (ob & E & Hinv & Hap).
  exists ob. split; [done|]. split.
  - assert (Hside : ∀ s p1 p2 l1 l2 i1 i2 b1 b2,
              own_side s ob !! p1 = Some l1 → l1 !! i1 = Some b1 →
              own_side s ob !! p2 = Some l2 → l2 !! i2 = Some b2 →
              Order.order_id b1 = Order.order_id b2 → p1 = p2 ∧ i1 = i2).
    { intros s p1 p2 l1 l2 i1 i2 b1 b2 Hl1 Hb1 Hl2 Hb2 Heq.
      apply (ids_inv_sides s) in Hinv as ((Hs & Ha & _) & _).
      assert (p1 = p2) as ->.
      { eapply (Ha p1 p2 l1 l2 b1 b2); try done;
          by eapply list_elem_of_lookup_2. }
      split; [done|]. simplify_eq.
      eapply sorted_ids_injective; eauto. }
    intros s1 s2 p1 p2 l1 l2 i1 i2 b1 b2 Hl1 Hb1 Hl2 Hb2 Heq.
    destruct s1, s2; simpl in *.
    + destruct (Hside BUY p1 p2 l1 l2 i1 i2 b1 b2) as [-> ->]; done.
    + exfalso. eapply (Hap p1 l1 b1 p2 l2 b2); try done;
        by eapply list_elem_of_lookup_2.
    + exfalso. eapply (Hap p2 l2 b2 p1 l1 b1); try done;
        by eapply list_elem_of_lookup_2.
    + destruct (Hside SELL p1 p2 l1 l2 i1 i2 b1 b2) as [-> ->]; done.
  - intros s p l b Hl Hb.
    apply (ids_inv_sides s) in Hinv as ((_ & _ & Hbelow) & _). by eapply Hbelow.
Qed.

(** X7: in a book reached by any sequence of calls, the resting order of a
    trade is older than its aggressor: the trade carries the id that the
    call gives the incoming order, and the id of a resting order, which is
    smaller. *)
Theorem aggressor_is_younger orders now o :
  ∃ ob ob' o' trs,
    process_orders OrderBook.init orders = Ok ob ∧
    process_order ob now o = Ok (ob', o') ∧
    OrderBook.trades ob' = OrderBook.trades ob ++ trs ∧
    Forall (λ t, ∃ i,
      Trade.book_order_id t = Some i ∧ i ≤ OrderBook.order_id ob ∧
      Trade.incoming_order_id t = Some (OrderBook.order_id ob + 1)) trs.
Proof.
  destruct (ids_inv_reached orders) as (ob & E & Hinv).
  apply (ids_inv_sides (Order.type o)) in Hinv as (_ & _ & _ & Hbelow).
  destruct (process_order_trades ob now o) as (ob' & o' & trs & E' & Ht & Hm & Hn).
  exists ob, ob', o', trs. split_and!; [done..|].
  destruct (decide (marketable ob o)) as [H|H].
  - destruct (Hm H) as (_ & (_ & _ & _ & _ & _ & Hag) & _).
    eapply Forall_impl; [exact Hag|].
    intros t (_ & T2 & p & l & b & _ & Hl & Hb & _ & T4).
    destruct (Hbelow _ _ _ Hl Hb) as (i & Hi & Hle).
    exists i. split_and!; [by rewrite T4|done|by rewrite T2].
  - destruct (Hn H) as (-> & _). constructor.
Qed.

(** ** The best price and the first trade *)

(** [m] is the best price of the index that an order of type [ty] is
    matched against: the smallest offer for a BUY, the largest bid for a
    SELL. *)
Definition best_key (ty : Type_) (levels : levels_t) (m : Z) : Prop :=
  match ty with
  | BUY => is_min_key levels m
  | SELL => is_max_key levels m
  end.

Lemma marketable_best ob o :
  marketable ob o →
  ∃ m, best_key (Order.type o) (opposite_side (Order.type o) ob) m ∧
       price_doesnt_match o m = false.
Proof.
  unfold marketable, best_key, price_doesnt_match.
  destruct (Order.type o); intros (_ & m & Hm & Hle); exists m;
    (split; [done|]); apply Z.ltb_ge; lia.
Qed.

(** The walk starts at the best price. *)
Lemma walk_prices_head ob o m :
  best_key (Order.type o) (opposite_side (Order.type o) ob) m →
  ∃ ps, walk_prices ob o = m :: ps.
Proof.
  intros Hm.
  destruct (sorted_spec (opposite_side (Order.type o) ob) (Order.type o))
    as (_ & Hs & Hin).
  fold (walk_prices ob o) in Hs, Hin.
  assert (Hmin : m ∈ walk_prices ob o).
  { apply Hin. unfold best_key in Hm. by destruct (Order.type o), Hm. }
  destruct (walk_prices ob o) as [|p0 ps]; [by apply elem_of_nil in Hmin|].
  exists ps. f_equal.
  apply elem_of_cons in Hmin as [?|Hmin]; [done|].
  apply StronglySorted_inv in Hs as [_ Hs]. rewrite Forall_forall in Hs.
  specialize (Hs _ Hmin).
  assert (Hp0 : is_Some (opposite_side (Order.type o) ob !! p0)) by (apply Hin; left).
  unfold best_key, walks_before, flip in *.
  destruct (Order.type o); destruct Hm as [_ Hm]; specialize (Hm _ Hp0); lia.
Qed.

Lemma match_levels_first inc levels p ps b l :
  Order.quantity inc ≠ 0 →
  price_doesnt_match inc p = false →
  levels !! p = Some (b :: l) →
  ∃ inc' levels' trs,
    match_levels inc levels (p :: ps) = Ok (inc', levels', execute_match inc b :: trs).
Proof.
  intros Hq Hp Hl.
  assert (E := match_orders_cons inc b l Hq). rewrite match_step_eq in E.
  destruct (match_orders _ l) as [[inc2 l2] trs2] eqn:E2.
  rewrite (match_levels_cons _ _ _ _ _ _ _ Hq Hp) by (rewrite Hl; exact E).
  match goal with
  | |- context [match_levels ?i ?ls ps] =>
      destruct (match_levels_total i ls ps) as (inc' & levels' & trs' & ->)
  end.
  simpl. eauto.
Qed.

Lemma both_inv_reached orders :
  Forall (λ x, valid x.2) orders →
  ∃ ob, process_orders OrderBook.init orders = Ok ob ∧
        book_inv ob ∧ keyed_inv ob ∧ ids_inv ob.
Proof.
  intros Hv.
  destruct (book_inv_reached orders Hv) as (ob & E & H1).
  destruct (keyed_inv_reached orders) as (ob2 & E2 & H2).
  destruct (ids_inv_reached orders) as (ob3 & E3 & H3).
  rewrite E in E2, E3. simplify_eq. eauto.
Qed.

(** X8: in a book reached by orders with positive price and quantity, a call
    on such an order puts a trade exactly when the order is marketable, and
    its first trade is then at the best opposite price, against the oldest
    order resting there, for the smaller of the two quantities. *)
Theorem first_trade orders now o :
  Forall (λ x, valid x.2) orders →
  valid o →
  ∃ ob ob' o' trs,
    process_orders OrderBook.init orders = Ok ob ∧
    process_order ob now o = Ok (ob', o') ∧
    OrderBook.trades ob' = OrderBook.trades ob ++ trs ∧
    (¬ marketable ob o → trs = []) ∧
    (marketable ob o →
       ∃ m b l rest,
         best_key (Order.type o) (opposite_side (Order.type o) ob) m ∧
         opposite_side (Order.type o) ob !! m = Some (b :: l) ∧
         trs = Trade.mk (Order.type o) m
                 (Z.min (Order.quantity o) (Order.quantity b))
                 (Some (OrderBook.order_id ob + 1)) (Order.order_id b) :: rest).
Proof.
  intros Hv [_ Hq].
  destruct (both_inv_reached orders Hv) as (ob & E & Hinv & Hk & _).
  apply (book_inv_sides (Order.type o)) in Hinv as (_ & Hopp & _).
  apply (keyed_inv_sides (Order.type o)) in Hk as (_ & Hk).
  destruct (process_order_trades ob now o) as (ob' & o' & trs & E' & Ht & Hm & Hn).
  exists ob, ob', o', trs. split_and!; [done..| |].
  - intros H. by destruct (Hn H).
  - intros H. destruct (Hm H) as (El & _).
    destruct (marketable_best ob o H) as (m & Hbest & Hp).
    destruct (walk_prices_head ob o m Hbest) as (ps & Hps).
    assert (Hsome : is_Some (opposite_side (Order.type o) ob !! m)).
    { unfold best_key in Hbest. by destruct (Order.type o), Hbest. }
    destruct Hsome as [[|b l] Hl]; [by destruct (Hopp _ _ Hl)|].
    rewrite Hps in El.
    destruct (match_levels_first (stamp ob now o)
                (opposite_side (Order.type o) ob) m ps b l)
      as (x & y & z & E2); [simpl; lia|done..|].
    rewrite El in E2. simplify_eq.
    exists m, b, l, z. split_and!; [done..|].
    destruct (Hk m (b :: l) b Hl) as [Hprice _]; [left|].
    unfold execute_match. simpl. by rewrite Hprice.
Qed.

Lemma first_trade_witness :
  Forall (λ x, valid x.2) demo_orders ∧
  valid demo_sell ∧
  ∃ ob ob' o' trs,
    process_orders OrderBook.init demo_orders = Ok ob ∧
    process_order ob 9 demo_sell = Ok (ob', o') ∧
    OrderBook.trades ob' = OrderBook.trades ob ++ trs ∧
    (¬ marketable ob demo_sell → trs = []) ∧
    (marketable ob demo_sell →
       ∃ m b l rest,
         is_max_key (OrderBook.bids ob) m ∧
         OrderBook.bids ob !! m = Some (b :: l) ∧
         trs = Trade.mk SELL m (Z.min 100 (Order.quantity b))
                 (Some (OrderBook.order_id ob + 1)) (Order.order_id b) :: rest).
Proof.
  split; [by_evaluation|]. split; [by_evaluation|].
  apply (first_trade demo_orders 9 demo_sell); by_evaluation.
Defined.

(** ** How much a call executes *)

(** [sum(o.quantity for o in orders)] *)
Definition sum_quantity (orders : list Order.t) : Z :=
  foldl (λ acc o, acc + Order.quantity o) 0 orders.

(** The quantity that rests, in the given levels, at those of the given
    prices that the order crosses. *)
Definition available (o : Order.t) (levels : levels_t) (prices : list Z) : Z :=
  foldr (λ p acc,
           (if price_doesnt_match o p then 0
            else sum_quantity (default [] (levels !! p))) + acc)
        0 prices.

(** The quantity that rests on the opposite side at prices that the order
    crosses. *)
Definition crossing_quantity (ob : OrderBook.t) (o : Order.t) : Z :=
  available o (opposite_side (Order.type o) ob) (walk_prices ob o).

Lemma sum_quantity_cons b l :
  sum_quantity (b :: l) = Order.quantity b + sum_quantity l.
Proof.
  unfold sum_quantity. simpl.
  assert (H : ∀ l a, foldl (λ acc o, acc + Order.quantity o) a l =
                     a + foldl (λ acc o, acc + Order.quantity o) 0 l).
  { clear. induction l as [|x l IH]; intros a; simpl; [lia|].
    rewrite (IH (a + _)), (IH (0 + _)). lia. }
  rewrite H. lia.
Qed.

Lemma sum_quantity_nonneg l :
  Forall (λ b, 0 < Order.quantity b) l → 0 ≤ sum_quantity l.
Proof.
  induction 1 as [|b l Hb _ IH]; [done|]. rewrite sum_quantity_cons. lia.
Qed.

Lemma available_nonneg o levels prices :
  positive_levels levels → 0 ≤ available o levels prices.
Proof.
  intros Hpos. induction prices as [|p ps IH]; simpl; [done|].
  destruct (price_doesnt_match o p); [lia|].
  pose proof (sum_quantity_nonneg _ (positive_default levels p Hpos)). lia.
Qed.

Lemma available_ext o o' levels levels' prices :
  Order.type o' = Order.type o → Order.price o' = Order.price o →
  (∀ p, p ∈ prices → levels' !! p = levels !! p) →
  available o' levels' prices = available o levels prices.
Proof.
  intros Hty Hpr. induction prices as [|p ps IH]; intros H; simpl; [done|].
  rewrite IH by (intros q Hq; apply H; by right).
  rewrite (H p) by left. unfold price_doesnt_match. by rewrite Hty, Hpr.
Qed.

(** With a non-negative incoming quantity and positive resting quantities,
    the inner loop executes the smaller of the incoming quantity and the
    quantity of the level. *)
Lemma match_orders_traded l : ∀ inc inc' l' trs,
  match_orders inc l = (inc', l', trs) →
  0 ≤ Order.quantity inc →
  Forall (λ b, 0 < Order.quantity b) l →
  traded trs = Z.min (Order.quantity inc) (sum_quantity l).
Proof.
  induction l as [|b rest IH]; intros inc inc' l' trs H Hq Hl.
  - rewrite match_orders_nil in H. simplify_eq. simpl. unfold sum_quantity. simpl. lia.
  - pose proof (sum_quantity_nonneg _ Hl) as Hsum. rewrite sum_quantity_cons in *.
    inv Hl. pose proof (sum_quantity_nonneg rest ltac:(done)) as Hrest.
    destruct (decide (Order.quantity inc = 0)) as [Hz|Hnz].
    + rewrite match_orders_done in H by done. simplify_eq. simpl. lia.
    + rewrite match_orders_cons, match_step_eq in H by done.
      destruct (match_orders _ rest) as [[inc2 rest'] trs'] eqn:E.
      simplify_eq. apply IH in E; [|simpl; lia|done]. simpl in *. lia.
Qed.

Lemma match_levels_traded prices inc levels inc' levels' trs :
  match_levels inc levels prices = Ok (inc', levels', trs) →
  NoDup prices →
  StronglySorted (walks_before (Order.type inc)) prices →
  0 ≤ Order.quantity inc →
  positive_levels levels →
  traded trs = Z.min (Order.quantity inc) (available inc levels prices).
Proof.
  intros E.
  cut (∃ x y z, match_levels inc levels prices = Ok (x, y, z) ∧
         (NoDup prices →
          StronglySorted (walks_before (Order.type inc)) prices →
          0 ≤ Order.quantity inc → positive_levels levels →
          traded z = Z.min (Order.quantity inc) (available inc levels prices))).
  { intros (x & y & z & E' & H). rewrite E in E'. by simplify_eq. }
  clear. revert prices inc levels. apply match_levels_rect.
  - intros inc levels _ _ Hq _. simpl. lia.
  - intros inc levels p ps [Hz|Hp] _ Hs Hq Hpos.
    + pose proof (available_nonneg inc levels (p :: ps) Hpos). simpl (traded []). lia.
    + assert (Hall : ∀ q, q ∈ p :: ps → price_doesnt_match inc q = true).
      { intros q Hin. apply elem_of_cons in Hin as [->|Hin]; [done|].
        apply StronglySorted_inv in Hs as [_ Hs]. rewrite Forall_forall in Hs.
        by apply (price_doesnt_match_mono inc inc p q); auto. }
      assert (Hzero : available inc levels (p :: ps) = 0).
      { clear -Hall. induction (p :: ps) as [|q qs IH]; simpl; [done|].
        rewrite (Hall q) by left. rewrite IH; [done|].
        intros r Hr. apply Hall. by right. }
      rewrite Hzero. simpl. lia.
  - intros inc levels p ps inc1 l1 trs inc2 levels3 trs' Hnz Hp E _ IH
      Hnd Hs Hq Hpos.
    destruct (match_orders_spec _ _ _ _ _ E) as (E1 & E2 & _).
    assert (Hty : Order.type inc1 = Order.type inc) by (by rewrite E1).
    assert (Hpr : Order.price inc1 = Order.price inc) by (by rewrite E1).
    pose proof (match_orders_traded _ _ _ _ _ E Hq (positive_default _ p Hpos)) as Ht.
    apply NoDup_cons in Hnd as [Hnp Hnd].
    apply StronglySorted_inv in Hs as [Hs _].
    rewrite traded_app, IH; [|done|by rewrite Hty|lia|by apply positive_level_step].
    rewrite (available_ext inc inc1 levels); [|done..|].
    2:{ intros q Hq'. rewrite lookup_level_step, decide_False; [done|].
        by intros ->. }
    simpl. rewrite Hp.
    pose proof (available_nonneg inc levels ps Hpos).
    pose proof (sum_quantity_nonneg _ (positive_default levels p Hpos)). lia.
Qed.

(** X9: in a book reached by orders with positive price and quantity, a call
    on such an order executes as much as it can: the quantity of its trades
    is the smaller of the order's quantity and the quantity resting on the
    opposite side at prices the order crosses, and the order is left with
    the rest. *)
Theorem executed_quantity orders now o :
  Forall (λ x, valid x.2) orders →
  valid o →
  ∃ ob ob' o' trs,
    process_orders OrderBook.init orders = Ok ob ∧
    process_order ob now o = Ok (ob', o') ∧
    OrderBook.trades ob' = OrderBook.trades ob ++ trs ∧
    traded trs = Z.min (Order.quantity o) (crossing_quantity ob o) ∧
    Order.quantity o' = Order.quantity o - traded trs.
Proof.
  intros Hv [_ Hq].
  destruct (book_inv_reached orders Hv) as (ob & E & Hinv).
  apply (book_inv_sides (Order.type o)) in Hinv as (_ & Hopp & _).
  destruct (process_order_trades ob now o) as (ob' & o' & trs & E' & Ht & Hm & Hn).
  exists ob, ob', o', trs. split_and!; [done..| |].
  - destruct (decide (marketable ob o)) as [H|H].
    + destruct (Hm H) as (El & _).
      destruct (sorted_spec (opposite_side (Order.type o) ob) (Order.type o))
        as (Hnd & Hs & _).
      rewrite (match_levels_traded _ _ _ _ _ _ El Hnd Hs);
        [done|simpl; lia|by apply hygienic_positive].
    + destruct (Hn H) as (-> & _). simpl.
      assert (Hzero : crossing_quantity ob o = 0).
      { unfold crossing_quantity.
        assert (Hall : ∀ q, q ∈ walk_prices ob o → price_doesnt_match o q = true).
        { intros q Hq'. apply not_marketable_beyond with (ob := ob); [done|].
          destruct (sorted_spec (opposite_side (Order.type o) ob) (Order.type o))
            as (_ & _ & Hin).
          by apply Hin. }
        clear -Hall. induction (walk_prices ob o) as [|q qs IH]; simpl; [done|].
        rewrite (Hall q) by left. rewrite IH; [done|].
        intros r Hr. apply Hall. by right. }
      rewrite Hzero. lia.
  - destruct (decide (marketable ob o)) as [H|H].
    + destruct (Hm H) as (_ & (_ & Hcons & _) & _). simpl in Hcons. lia.
    + destruct (Hn H) as (-> & -> & _). simpl. lia.
Qed.

Lemma executed_quantity_witness :
  Forall (λ x, valid x.2) demo_orders ∧
  valid demo_sell ∧
  ∃ ob ob' o' trs,
    process_orders OrderBook.init demo_orders = Ok ob ∧
    process_order ob 9 demo_sell = Ok (ob', o') ∧
    OrderBook.trades ob' = OrderBook.trades ob ++ trs ∧
    traded trs = Z.min 100 (crossing_quantity ob demo_sell) ∧
    Order.quantity o' = 100 - traded trs.
Proof.
  split; [by_evaluation|]. split; [by_evaluation|].
  apply (executed_quantity demo_orders 9 demo_sell); by_evaluation.
Defined.

(** ** What a call does to the resting orders *)

Lemma match_orders_decrease l : ∀ inc inc' l' trs,
  match_orders inc l = (inc', l', trs) →
  0 ≤ Order.quantity inc →
  Forall (λ b, 0 < Order.quantity b) l →
  Forall2 (λ b' b, b' = Order.set_quantity b (Order.quantity b') ∧
                   Order.quantity b' ≤ Order.quantity b) l' l.
Proof.
  induction l as [|b rest IH]; intros inc inc' l' trs H Hq Hl.
  - rewrite match_orders_nil in H. simplify_eq. constructor.
  - destruct (decide (Order.quantity inc = 0)) as [Hz|Hnz].
    + rewrite match_orders_done in H by done. simplify_eq.
      apply Forall2_same_length_lookup_2; [done|].
      intros i x y Hx Hy. simplify_eq. by rewrite set_quantity_id.
    + rewrite match_orders_cons, match_step_eq in H by done.
      destruct (match_orders _ rest) as [[inc2 rest'] trs'] eqn:E.
      simplify_eq. inv Hl. constructor.
      * simpl. split; [done|lia].
      * eapply IH; [done|simpl; lia|done].
Qed.

Lemma match_levels_decrease prices inc levels inc' levels' trs :
  match_levels inc levels prices = Ok (inc', levels', trs) →
  0 ≤ Order.quantity inc →
  positive_levels levels →
  ∀ q l' b', levels' !! q = Some l' → b' ∈ l' →
    ∃ l b, levels !! q = Some l ∧ b ∈ l ∧
           b' = Order.set_quantity b (Order.quantity b') ∧
           Order.quantity b' ≤ Order.quantity b.
Proof.
  intros E.
  cut (∃ x y z, match_levels inc levels prices = Ok (x, y, z) ∧
         (0 ≤ Order.quantity inc → positive_levels levels →
          ∀ q l' b', y !! q = Some l' → b' ∈ l' →
            ∃ l b, levels !! q = Some l ∧ b ∈ l ∧
                   b' = Order.set_quantity b (Order.quantity b') ∧
                   Order.quantity b' ≤ Order.quantity b)).
  { intros (x & y & z & E' & H). rewrite E in E'. by simplify_eq. }
  clear. revert prices inc levels.
  assert (Hstop : ∀ levels : levels_t, ∀ q l' b',
            levels !! q = Some l' → b' ∈ l' →
            ∃ l b, levels !! q = Some l ∧ b ∈ l ∧
                   b' = Order.set_quantity b (Order.quantity b') ∧
                   Order.quantity b' ≤ Order.quantity b).
  { intros levels q l' b' Hl' Hb'. exists l', b'.
    rewrite set_quantity_id. split_and!; [done..|lia]. }
  apply match_levels_rect.
  - intros inc levels _ _. apply Hstop.
  - intros inc levels p ps _ _ _. apply Hstop.
  - intros inc levels p ps inc1 l1 trs inc2 levels3 trs' _ _ E _ IH Hq Hpos
      q l' b' Hl' Hb'.
    destruct (match_orders_positive _ _ _ _ _ E Hq (positive_default _ p Hpos))
      as (Hq1 & _).
    pose proof (match_orders_decrease _ _ _ _ _ E Hq (positive_default _ p Hpos)) as Hd.
    destruct (IH Hq1 (positive_level_step _ p l1 Hpos) q l' b' Hl' Hb')
      as (l2 & b2 & Hl2 & Hb2 & Heq & Hle).
    rewrite lookup_level_step in Hl2. case_decide as Hpq; [|by eauto 10].
    case_decide; [done|]. simplify_eq.
    apply compact_elem_of in Hb2 as [_ Hb2].
    apply list_elem_of_lookup in Hb2 as [i Hi].
    destruct (Forall2_lookup_l _ _ _ _ _ Hd Hi) as (b & Hb & Heq2 & Hle2).
    destruct (levels !! q) as [l|] eqn:El; simpl in Hb; [|by rewrite lookup_nil in Hb].
    exists l, b. split_and!; [done|by eapply list_elem_of_lookup_2| |lia].
    rewrite Heq, Heq2. done.
Qed.

(** X10: in a book reached by orders with positive price and quantity, a call
    on such an order changes a resting order in its quantity only, and only
    downwards: every order of the opposite index after the call is an order
    of the same level before the call with the same fields but a quantity
    that is no larger, and every order of the own index after the call is
    the incoming order or an untouched order of the same level. *)
Theorem resting_orders_only_shrink orders now o :
  Forall (λ x, valid x.2) orders →
  valid o →
  ∃ ob ob' o',
    process_orders OrderBook.init orders = Ok ob ∧
    process_order ob now o = Ok (ob', o') ∧
    let ty := Order.type o in
    (∀ p l' b', opposite_side ty ob' !! p = Some l' → b' ∈ l' →
       ∃ l b, opposite_side ty ob !! p = Some l ∧ b ∈ l ∧
              b' = Order.set_quantity b (Order.quantity b') ∧
              Order.quantity b' ≤ Order.quantity b) ∧
    (∀ p l' b', own_side ty ob' !! p = Some l' → b' ∈ l' →
       b' = o' ∨ ∃ l, own_side ty ob !! p = Some l ∧ b' ∈ l).
Proof.
  intros Hv [_ Hq].
  destruct (book_inv_reached orders Hv) as (ob & E & Hinv).
  apply (book_inv_sides (Order.type o)) in Hinv as (_ & Hopp & _).
  destruct (process_order_trades ob now o) as (ob' & o' & trs & E' & Ht & Hm & Hn).
  exists ob, ob', o'. split_and!; [done..|]. cbv zeta.
  destruct (decide (marketable ob o)) as [H|H].
  - destruct (Hm H) as (El & _ & Hown & _). split.
    + apply (match_levels_decrease _ _ _ _ _ _ El); [simpl; lia|].
      by apply hygienic_positive.
    + intros p l' b' Hl' Hb'. rewrite Hown in Hl'.
      destruct (0 <? Order.quantity o'); [|by eauto].
      destruct (elem_of_append_order _ _ _ _ _ _ Hl' Hb') as [[_ ->]|?]; auto.
  - destruct (Hn H) as (_ & -> & ->).
    change (Order.type o) with (Order.type (stamp ob now o)).
    rewrite own_side_rest_order, opposite_side_rest_order.
    rewrite own_side_advance, opposite_side_advance. split.
    + intros p l' b' Hl' Hb'. exists l', b'.
      rewrite set_quantity_id. split_and!; [done..|lia].
    + intros p l' b' Hl' Hb'.
      destruct (elem_of_append_order _ _ _ _ _ _ Hl' Hb') as [[_ ->]|?]; auto.
Qed.

Lemma resting_orders_only_shrink_witness :
  Forall (λ x, valid x.2) demo_orders ∧
  valid demo_sell ∧
  ∃ ob ob' o',
    process_orders OrderBook.init demo_orders = Ok ob ∧
    process_order ob 9 demo_sell = Ok (ob', o') ∧
    (∀ p l' b', OrderBook.bids ob' !! p = Some l' → b' ∈ l' →
       ∃ l b, OrderBook.bids ob !! p = Some l ∧ b ∈ l ∧
              b' = Order.set_quantity b (Order.quantity b') ∧
              Order.quantity b' ≤ Order.quantity b) ∧
    (∀ p l' b', OrderBook.offers ob' !! p = Some l' → b' ∈ l' →
       b' = o' ∨ ∃ l, OrderBook.offers ob !! p = Some l ∧ b' ∈ l).
Proof.
  split; [by_evaluation|]. split; [by_evaluation|].
  apply (resting_orders_only_shrink demo_orders 9 demo_sell); by_evaluation.
Defined.

Lemma compact_id l : Forall (λ b, 0 < Order.quantity b) l → compact l = l.
Proof.
  unfold compact. induction 1 as [|b l Hb _ IH]; [done|].
  rewrite filter_cons, decide_True by done. by rewrite IH.
Qed.

(** X11: the code accepts a negative quantity.  In a book reached by orders
    with positive price and quantity, a marketable order of negative
    quantity puts a single trade, of that negative quantity, against the
    oldest order at the best opposite price; that resting order's quantity
    grows by as much, the incoming order is left with quantity 0 and rests
    nowhere. *)
Theorem negative_quantity_inflates orders now o :
  Forall (λ x, valid x.2) orders →
  Order.quantity o < 0 →
  ∃ ob ob' o',
    process_orders OrderBook.init orders = Ok ob ∧
    process_order ob now o = Ok (ob', o') ∧
    let ty := Order.type o in
    (marketable ob o →
       ∃ m b l,
         best_key ty (opposite_side ty ob) m ∧
         opposite_side ty ob !! m = Some (b :: l) ∧
         OrderBook.trades ob' =
           OrderBook.trades ob ++
             [Trade.mk ty m (Order.quantity o)
                (Some (OrderBook.order_id ob + 1)) (Order.order_id b)] ∧
         opposite_side ty ob' =
           <[m := Order.set_quantity b (Order.quantity b - Order.quantity o) :: l]>
             (opposite_side ty ob) ∧
         own_side ty ob' = own_side ty ob ∧
         Order.quantity o' = 0).
Proof.
  intros Hv Hq.
  destruct (both_inv_reached orders Hv) as (ob & E & Hinv & Hk & _).
  apply (book_inv_sides (Order.type o)) in Hinv as (_ & Hopp & _).
  apply (keyed_inv_sides (Order.type o)) in Hk as (_ & Hk).
  destruct (process_order_trades ob now o) as (ob' & o' & trs & E' & Ht & Hm & _).
  exists ob, ob', o'. split_and!; [done..|]. cbv zeta. intros H.
  destruct (Hm H) as (El & _ & Hown & _).
  destruct (marketable_best ob o H) as (m & Hbest & Hp).
  destruct (walk_prices_head ob o m Hbest) as (ps & Hps).
  assert (Hsome : is_Some (opposite_side (Order.type o) ob !! m)).
  { unfold best_key in Hbest. by destruct (Order.type o), Hbest. }
  destruct Hsome as [[|b l] Hl]; [by destruct (Hopp _ _ Hl)|].
  destruct (Hopp _ _ Hl) as [_ Hpos]. pose proof Hpos as Hpos'. inv Hpos'.
  destruct (Hk m (b :: l) b Hl) as [Hprice _]; [left|].
  set (inc := stamp ob now o) in *.
  assert (Hmin : Z.min (Order.quantity inc) (Order.quantity b) = Order.quantity o).
  { simpl. lia. }
  assert (Eo : match_orders inc (b :: l) =
                 (Order.set_quantity inc 0,
                  Order.set_quantity b (Order.quantity b - Order.quantity o) :: l,
                  [execute_match inc b])).
  { rewrite match_orders_cons, match_step_eq by (simpl; lia). rewrite Hmin.
    replace (Order.quantity inc - Order.quantity o) with 0 by (simpl; lia).
    by rewrite match_orders_done. }
  rewrite Hps in El.
  assert (Ec : match_levels inc (opposite_side (Order.type o) ob) (m :: ps) =
               Ok (Order.set_quantity inc 0,
                   level_step (opposite_side (Order.type o) ob) m
                     (Order.set_quantity b (Order.quantity b - Order.quantity o) :: l),
                   [execute_match inc b])).
  { rewrite (match_levels_cons inc _ m ps (Order.set_quantity inc 0)
               (Order.set_quantity b (Order.quantity b - Order.quantity o) :: l)
               [execute_match inc b]);
      [|simpl; lia|done|rewrite Hl; exact Eo].
    by rewrite match_levels_done. }
  rewrite Ec in El. injection El as Ho' Hopp' Htrs.
  rewrite <- Ho' in Hown. simpl in Hown.
  exists m, b, l. split_and!; [done..| | |done|by rewrite <- Ho'].
  - rewrite Ht, <- Htrs. unfold execute_match. by rewrite Hmin, Hprice.
  - rewrite <- Hopp'. unfold level_step. rewrite compact_id; [done|].
    constructor; [simpl; lia|done].
Qed.

Lemma negative_quantity_inflates_witness :
  Forall (λ x, valid x.2) [(1, order SELL 10 5)] ∧
  Order.quantity (order BUY 10 (-3)) < 0 ∧
  ∃ ob ob' o',
    process_orders OrderBook.init [(1, order SELL 10 5)] = Ok ob ∧
    process_order ob 2 (order BUY 10 (-3)) = Ok (ob', o') ∧
    (marketable ob (order BUY 10 (-3)) →
       ∃ m b l,
         is_min_key (OrderBook.offers ob) m ∧
         OrderBook.offers ob !! m = Some (b :: l) ∧
         OrderBook.trades ob' =
           OrderBook.trades ob ++
             [Trade.mk BUY m (-3) (Some (OrderBook.order_id ob + 1)) (Order.order_id b)] ∧
         OrderBook.offers ob' =
           <[m := Order.set_quantity b (Order.quantity b - -3) :: l]>
             (OrderBook.offers ob) ∧
         OrderBook.bids ob' = OrderBook.bids ob ∧
         Order.quantity o' = 0).
Proof.
  split; [by_evaluation|]. split; [by_evaluation|].
  apply (negative_quantity_inflates [(1, order SELL 10 5)] 2 (order BUY 10 (-3)));
    by_evaluation.
Defined.

(** ** Best-price queries *)

(** X12: [max_bid] is 0 for an empty bids index and the largest bid price
    otherwise; [min_offer] is infinite for an empty offers index and the
    smallest offer price otherwise. *)
Theorem best_price_queries ob :
  (OrderBook.bids ob = ∅ → max_bid ob = 0) ∧
  (OrderBook.bids ob ≠ ∅ → is_max_key (OrderBook.bids ob) (max_bid ob)) ∧
  (OrderBook.offers ob = ∅ → min_offer ob = Inf) ∧
  (OrderBook.offers ob ≠ ∅ →
     ∃ m, min_offer ob = Fin m ∧ is_min_key (OrderBook.offers ob) m).
Proof.
  split_and!.
  - intros H. unfold max_bid. apply keys_nil in H. by rewrite H.
  - apply max_bid_spec.
  - intros H. unfold min_offer. apply keys_nil in H. by rewrite H.
  - apply min_offer_spec.
Qed.

(** Every price of the index is positive. *)
Definition positive_keys (levels : levels_t) : Prop :=
  ∀ p, is_Some (levels !! p) → 0 < p.

Definition priced_inv (ob : OrderBook.t) : Prop :=
  book_inv ob ∧ positive_keys (OrderBook.bids ob) ∧ positive_keys (OrderBook.offers ob).

Lemma positive_keys_sides ty ob :
  positive_keys (OrderBook.bids ob) ∧ positive_keys (OrderBook.offers ob) ↔
  positive_keys (own_side ty ob) ∧ positive_keys (opposite_side ty ob).
Proof. destruct ty; simpl; [done|]. split; intros [? ?]; done. Qed.

Lemma priced_inv_step ob now o ob' o' :
  priced_inv ob → valid o → process_order ob now o = Ok (ob', o') → priced_inv ob'.
Proof.
  intros (Hinv & Hkeys) Hv E. split; [by eapply book_inv_step|].
  apply (positive_keys_sides (Order.type o)) in Hkeys as [Hown Hopp].
  apply (positive_keys_sides (Order.type o)).
  destruct Hv as [Hp _].
  destruct (process_order_trades ob now o) as (ob2 & o2 & trs & E' & _ & Hm & Hn).
  rewrite E in E'. simplify_eq.
  destruct (decide (marketable ob o)) as [H|H].
  - destruct (Hm H) as (_ & Hpost & Hown' & _). rewrite Hown'. split.
    + destruct (0 <? Order.quantity o2); [|done].
      intros q Hq. apply is_Some_append in Hq as [->|Hq]; auto.
    + intros q Hq. apply Hopp. by eapply match_levels_post_dom.
  - destruct (Hn H) as (_ & -> & ->).
    change (Order.type o) with (Order.type (stamp ob now o)).
    rewrite own_side_rest_order, opposite_side_rest_order.
    rewrite own_side_advance, opposite_side_advance. split; [|done].
    intros q Hq. apply is_Some_append in Hq as [->|Hq]; auto.
Qed.

Lemma priced_inv_reached orders :
  Forall (λ x, valid x.2) orders →
  ∃ ob, process_orders OrderBook.init orders = Ok ob ∧ priced_inv ob.
Proof.
  apply (process_orders_invariant priced_inv valid).
  - intros ob now o ob' o'. apply priced_inv_step.
  - split; [apply book_inv_init|].
    split; intros p [l H]; simpl in H; by rewrite lookup_empty in H.
Qed.



(** ** The summary of the book *)

(** The fields of the book that [book_summary] writes. *)
Module Summary.
Record t := mk {
  bid_prices : list Z;
  bid_quantity : list Z;
  offer_prices : list Z;
  offer_quantity : list Z
}.
End Summary.

(** [[sum(o.quantity for o in levels[p]) for p in prices]], and the index
    as the reads of [levels[p]] leave it. *)
Fixpoint level_quantities (levels : levels_t) (prices : list Z)
  : list Z * levels_t :=
  match prices with
  | [] => ([], levels)
  | p :: prices' =>
      let '(orders, levels1) := getitem levels p in
      let '(qs, levels2) := level_quantities levels1 prices' in
      (sum_quantity orders :: qs, levels2)
  end.

(** [OrderBook.book_summary]: the book after the call and the four lists
    the call stores. *)
Definition book_summary (ob : OrderBook.t) : OrderBook.t * Summary.t :=
  let bid_prices := sorted (keys (OrderBook.bids ob)) true in
  let offer_prices := sorted (keys (OrderBook.offers ob)) false in
  let '(bid_quantity, bids1) := level_quantities (OrderBook.bids ob) bid_prices in
  let '(offer_quantity, offers1) := level_quantities (OrderBook.offers ob) offer_prices in
  (OrderBook.mk bids1 offers1 (OrderBook.trades ob) (OrderBook.order_id ob),
   Summary.mk bid_prices bid_quantity offer_prices offer_quantity).

(** The quantity resting at a price. *)
Definition level_quantity (levels : levels_t) (p : Z) : Z :=
  sum_quantity (default [] (levels !! p)).

Lemma level_quantities_spec prices : ∀ levels,
  (∀ p, p ∈ prices → is_Some (levels !! p)) →
  level_quantities levels prices = (level_quantity levels <$> prices, levels).
Proof.
  induction prices as [|p ps IH]; intros levels H; simpl; [done|].
  destruct (H p) as [l Hl]; [left|].
  unfold getitem. rewrite Hl. rewrite IH by (intros q Hq; apply H; by right).
  unfold level_quantity at 2. by rewrite Hl.
Qed.

Lemma sorted_keys (levels : levels_t) (r : bool) :
  let prices := sorted (keys levels) r in
  NoDup prices ∧
  StronglySorted (if r then flip Z.lt else Z.lt) prices ∧
  ∀ q, q ∈ prices ↔ is_Some (levels !! q).
Proof.
  assert (H := sorted_spec levels (if r then SELL else BUY)).
  replace (bool_decide ((if r then SELL else BUY) = SELL)) with r in H
    by (by destruct r).
  destruct H as (Hnd & Hs & Hin). simpl. split_and!; [done| |done].
  revert Hnd Hs. generalize (sorted (keys levels) r). clear.
  induction l as [|x l IH]; intros Hnd Hs; [constructor|].
  apply NoDup_cons in Hnd as [Hx Hnd]. apply StronglySorted_inv in Hs as [Hs Hl].
  constructor; [by apply IH|].
  apply Forall_forall. intros y Hy. rewrite Forall_forall in Hl.
  specialize (Hl y Hy). assert (x ≠ y) by (by intros ->).
  destruct r; unfold walks_before, flip in *; lia.
Qed.

Lemma book_summary_eq ob :
  book_summary ob =
    (ob, Summary.mk
           (sorted (keys (OrderBook.bids ob)) true)
           (level_quantity (OrderBook.bids ob) <$> sorted (keys (OrderBook.bids ob)) true)
           (sorted (keys (OrderBook.offers ob)) false)
           (level_quantity (OrderBook.offers ob) <$> sorted (keys (OrderBook.offers ob)) false)).
Proof.
  unfold book_summary.
  rewrite !level_quantities_spec by (intros p Hp; by apply sorted_keys in Hp).
  by destruct ob.
Qed.

(** X14: [book_summary] only reads the book: reading [bids[p]] and
    [offers[p]] at the prices it has just listed creates no level, so both
    indices, the trades and the counter are as before, and a second call
    stores the same four lists. *)
Theorem book_summary_reads_only ob :
  (book_summary ob).1 = ob ∧
  (book_summary (book_summary ob).1).2 = (book_summary ob).2.
Proof.
  assert (H : (book_summary ob).1 = ob) by (by rewrite book_summary_eq).
  split; [done|]. by rewrite H.
Qed.

(** X15: the price lists of the summary hold exactly the prices of the two
    indices, each once, the bids from the highest down and the offers from
    the lowest up; the quantity lists run parallel to them and give, for
    each price, the sum of the quantities of the orders resting there. *)
Theorem book_summary_lists ob :
  let s := (book_summary ob).2 in
  StronglySorted (flip Z.lt) (Summary.bid_prices s) ∧
  StronglySorted Z.lt (Summary.offer_prices s) ∧
  (∀ p, p ∈ Summary.bid_prices s ↔ is_Some (OrderBook.bids ob !! p)) ∧
  (∀ p, p ∈ Summary.offer_prices s ↔ is_Some (OrderBook.offers ob !! p)) ∧
  Summary.bid_quantity s =
    (λ p, sum_quantity (default [] (OrderBook.bids ob !! p))) <$> Summary.bid_prices s ∧
  Summary.offer_quantity s =
    (λ p, sum_quantity (default [] (OrderBook.offers ob !! p))) <$> Summary.offer_prices s.
Proof.
  rewrite book_summary_eq. simpl.
  destruct (sorted_keys (OrderBook.bids ob) true) as (_ & Hb & Hbin).
  destruct (sorted_keys (OrderBook.offers ob) false) as (_ & Ho & Hoin).
  split_and!; done.
Qed.

(** X16: the summary starts at the best prices: the first bid price is the
    value of [max_bid] and the first offer price the value of [min_offer],
    and a price list is empty exactly when its index is. *)
Theorem book_summary_heads ob :
  let s := (book_summary ob).2 in
  head (Summary.bid_prices s) =
    (if truthy (OrderBook.bids ob) then Some (max_bid ob) else None) ∧
  min_offer ob =
    match head (Summary.offer_prices s) with
    | Some m => Fin m
    | None => Inf
    end.
Proof.
  rewrite book_summary_eq. cbv zeta.
  cbn [snd Summary.bid_prices Summary.offer_prices].
  destruct (sorted_keys (OrderBook.bids ob) true) as (_ & Hb & Hbin).
  destruct (sorted_keys (OrderBook.offers ob) false) as (_ & Ho & Hoin).
  cbv zeta in *. split.
  - destruct (truthy (OrderBook.bids ob)) eqn:Ht.
    + apply truthy_true in Ht. pose proof (max_bid_spec ob Ht) as HM.
      destruct (sorted (keys (OrderBook.bids ob)) true) as [|x l] eqn:El.
      { destruct HM as [HM _]. apply Hbin in HM. by apply elem_of_nil in HM. }
      simpl. f_equal. apply (is_max_key_unique (OrderBook.bids ob)); [|done].
      split; [apply Hbin; left|].
      intros q Hq. apply Hbin in Hq. apply elem_of_cons in Hq as [->|Hq]; [lia|].
      apply StronglySorted_inv in Hb as [_ Hb]. rewrite Forall_forall in Hb.
      specialize (Hb q Hq). unfold flip in Hb. lia.
    + apply not_true_iff_false in Ht. rewrite truthy_true in Ht.
      apply dec_stable in Ht.
      destruct (sorted (keys (OrderBook.bids ob)) true) as [|x l] eqn:El; [done|].
      assert (Hx : is_Some (OrderBook.bids ob !! x)) by (apply Hbin; left).
      rewrite Ht, lookup_empty in Hx. by destruct Hx.
  - destruct (sorted (keys (OrderBook.offers ob)) false) as [|x l] eqn:El; simpl.
    + unfold min_offer.
      destruct (keys (OrderBook.offers ob)) as [|k ks] eqn:Ek; [done|].
      assert (Hk : k ∈ keys (OrderBook.offers ob)) by (rewrite Ek; left).
      apply elem_of_keys, Hoin in Hk. by apply elem_of_nil in Hk.
    + assert (Hne : OrderBook.offers ob ≠ ∅).
      { intros Hemp. assert (Hx : is_Some (OrderBook.offers ob !! x)) by (apply Hoin; left).
        rewrite Hemp, lookup_empty in Hx. by destruct Hx. }
      destruct (min_offer_spec ob Hne) as (m & -> & Hm). f_equal.
      apply (is_min_key_unique (OrderBook.offers ob)); [done|].
      split; [apply Hoin; left|].
      intros q Hq. apply Hoin in Hq. apply elem_of_cons in Hq as [->|Hq]; [lia|].
      apply StronglySorted_inv in Ho as [_ Ho]. rewrite Forall_forall in Ho.
      specialize (Ho q Hq). lia.
Qed.

Lemma sum_quantity_positive l :
  l ≠ [] → Forall (λ b, 0 < Order.quantity b) l → 0 < sum_quantity l.
Proof.
  intros Hne Hl. destruct l as [|b l]; [done|]. inv Hl.
  rewrite sum_quantity_cons. pose proof (sum_quantity_nonneg l ltac:(done)). lia.
Qed.

(** X17: after any sequence of orders with positive price and quantity, the
    summary shows positive prices with a positive quantity at each of
    them, and every bid price below every offer price. *)
Theorem book_summary_of_valid_orders orders :
  Forall (λ x, valid x.2) orders →
  ∃ ob,
    process_orders OrderBook.init orders = Ok ob ∧
    let s := (book_summary ob).2 in
    Forall (λ p, 0 < p) (Summary.bid_prices s) ∧
    Forall (λ p, 0 < p) (Summary.offer_prices s) ∧
    Forall (λ q, 0 < q) (Summary.bid_quantity s) ∧
    Forall (λ q, 0 < q) (Summary.offer_quantity s) ∧
    (∀ pb po, pb ∈ Summary.bid_prices s → po ∈ Summary.offer_prices s → pb < po).
Proof.
  intros Hv. destruct (priced_inv_reached orders Hv)
    as (ob & E & (Hhb & Hho & Hu) & Hb & Ho).
  exists ob. split; [done|]. rewrite book_summary_eq. cbv zeta.
  cbn [snd Summary.bid_prices Summary.offer_prices
       Summary.bid_quantity Summary.offer_quantity].
  destruct (sorted_keys (OrderBook.bids ob) true) as (_ & _ & Hbin).
  destruct (sorted_keys (OrderBook.offers ob) false) as (_ & _ & Hoin).
  cbv zeta in *.
  assert (Hq : ∀ levels : levels_t, ∀ ps,
            hygienic levels → (∀ p, p ∈ ps → is_Some (levels !! p)) →
            Forall (λ q, 0 < q) (level_quantity levels <$> ps)).
  { intros levels ps Hh Hin. apply Forall_fmap, Forall_forall. intros p Hp.
    destruct (Hin p Hp) as [l Hl]. unfold level_quantity. simpl. rewrite Hl. simpl.
    destruct (Hh _ _ Hl). by apply sum_quantity_positive. }
  split_and!.
  - apply Forall_forall. intros p Hp. by apply Hb, Hbin.
  - apply Forall_forall. intros p Hp. by apply Ho, Hoin.
  - apply Hq; [done|]. intros p Hp. by apply Hbin.
  - apply Hq; [done|]. intros p Hp. by apply Hoin.
  - intros pb po Hpb Hpo. apply Hu; [by apply Hbin|by apply Hoin].
Qed.

Lemma book_summary_of_valid_orders_witness :
  Forall (λ x, valid x.2) demo_orders ∧
  ∃ ob,
    process_orders OrderBook.init demo_orders = Ok ob ∧
    let s := (book_summary ob).2 in
    Forall (λ p, 0 < p) (Summary.bid_prices s) ∧
    Forall (λ p, 0 < p) (Summary.offer_prices s) ∧
    Forall (λ q, 0 < q) (Summary.bid_quantity s) ∧
    Forall (λ q, 0 < q) (Summary.offer_quantity s) ∧
    (∀ pb po, pb ∈ Summary.bid_prices s → po ∈ Summary.offer_prices s → pb < po).
Proof.
  split; [by_evaluation|].
  apply (book_summary_of_valid_orders demo_orders). by_evaluation.
Defined.

(** ** Accounting through the summary *)

(** [sum(qs)] *)
Definition total (qs : list Z) : Z := foldr Z.add 0 qs.

(** The quantity list of the summary for the index of type [ty]. *)
Definition side_quantity (ty : Type_) (s : Summary.t) : list Z :=
  match ty with
  | BUY => Summary.bid_quantity s
  | SELL => Summary.offer_quantity s
  end.

(** The quantity resting in an index. *)
Definition volume (levels : levels_t) : Z :=
  total ((λ kl, sum_quantity kl.2) <$> map_to_list levels).

Lemma total_perm l l' : l ≡ₚ l' → total l = total l'.
Proof. induction 1; simpl; lia. Qed.

Lemma volume_insert_fresh (m : levels_t) p l :
  m !! p = None → volume (<[p := l]> m) = sum_quantity l + volume m.
Proof.
  intros H. unfold volume.
  rewrite (total_perm _ ((λ kl, sum_quantity kl.2) <$> ((p, l) :: map_to_list m))).
  - done.
  - apply fmap_Permutation. by apply map_to_list_insert.
Qed.

Lemma volume_delete (m : levels_t) p :
  volume (delete p m) = volume m - level_quantity m p.
Proof.
  unfold level_quantity. destruct (m !! p) as [l|] eqn:E; simpl.
  - rewrite <- (insert_delete_id m p l E) at 2.
    rewrite volume_insert_fresh by apply lookup_delete_eq. lia.
  - rewrite delete_id by done. unfold sum_quantity. simpl. lia.
Qed.

Lemma volume_insert (m : levels_t) p l :
  volume (<[p := l]> m) = volume m - level_quantity m p + sum_quantity l.
Proof.
  rewrite <- insert_delete_eq, volume_insert_fresh by apply lookup_delete_eq.
  rewrite volume_delete. lia.
Qed.

Lemma volume_level_step (m : levels_t) p l1 :
  volume (level_step m p l1) =
    volume m - level_quantity m p + sum_quantity (compact l1).
Proof.
  unfold level_step. destruct (compact l1) eqn:E.
  - rewrite volume_delete. unfold sum_quantity. simpl. lia.
  - by rewrite volume_insert.
Qed.

Lemma sum_quantity_snoc l o :
  sum_quantity (l ++ [o]) = sum_quantity l + Order.quantity o.
Proof. unfold sum_quantity. by rewrite foldl_app. Qed.

Lemma volume_append (m : levels_t) p o :
  volume (append_order m p o) = volume m + Order.quantity o.
Proof.
  rewrite append_order_eq, volume_insert, sum_quantity_snoc.
  unfold level_quantity. lia.
Qed.

Lemma volume_summary (m : levels_t) r :
  total (level_quantity m <$> sorted (keys m) r) = volume m.
Proof.
  unfold volume.
  rewrite (total_perm _ (level_quantity m <$> keys m)).
  2:{ apply fmap_Permutation. unfold sorted.
      destruct r; apply merge_sort_Permutation. }
  unfold keys. rewrite <- list_fmap_compose. f_equal.
  apply list_fmap_ext. intros i [k l] H. simpl.
  apply list_elem_of_lookup_2, elem_of_map_to_list in H.
  unfold level_quantity. by rewrite H.
Qed.

Lemma side_quantity_volume ty ob :
  total (side_quantity ty (book_summary ob).2) = volume (own_side ty ob).
Proof.
  rewrite book_summary_eq.
  destruct ty; cbn [snd side_quantity own_side Summary.bid_quantity Summary.offer_quantity];
    apply volume_summary.
Qed.

(** The orders of a level lose what the trades of the inner loop take. *)
Lemma match_orders_resting l : ∀ inc inc' l' trs,
  match_orders inc l = (inc', l', trs) →
  sum_quantity l' = sum_quantity l - traded trs.
Proof.
  induction l as [|b rest IH]; intros inc inc' l' trs H.
  - rewrite match_orders_nil in H. simplify_eq. simpl. lia.
  - destruct (decide (Order.quantity inc = 0)) as [Hz|Hnz].
    + rewrite match_orders_done in H by done. simplify_eq. simpl. lia.
    + rewrite match_orders_cons, match_step_eq in H by done.
      destruct (match_orders _ rest) as [[inc2 rest'] trs'] eqn:E.
      simplify_eq. apply IH in E. rewrite !sum_quantity_cons, E. simpl. lia.
Qed.

Lemma match_orders_nonneg l : ∀ inc inc' l' trs,
  match_orders inc l = (inc', l', trs) →
  Forall (λ b, 0 < Order.quantity b) l →
  Forall (λ b, 0 ≤ Order.quantity b) l'.
Proof.
  induction l as [|b rest IH]; intros inc inc' l' trs H Hl.
  - rewrite match_orders_nil in H. by simplify_eq.
  - destruct (decide (Order.quantity inc = 0)) as [Hz|Hnz].
    + rewrite match_orders_done in H by done. simplify_eq.
      eapply Forall_impl; [done|]. simpl. lia.
    + rewrite match_orders_cons, match_step_eq in H by done.
      destruct (match_orders _ rest) as [[inc2 rest'] trs'] eqn:E.
      simplify_eq. inv Hl. constructor; [simpl; lia|by eapply IH].
Qed.

Lemma sum_quantity_compact l :
  Forall (λ b, 0 ≤ Order.quantity b) l → sum_quantity (compact l) = sum_quantity l.
Proof.
  unfold compact. induction 1 as [|b l Hb _ IH]; [done|].
  rewrite filter_cons. case_decide.
  - by rewrite !sum_quantity_cons, IH.
  - rewrite sum_quantity_cons, IH. lia.
Qed.

(** With positive resting quantities, the index loses what the trades of
    the walk take. *)
Lemma match_levels_volume prices inc levels inc' levels' trs :
  match_levels inc levels prices = Ok (inc', levels', trs) →
  positive_levels levels →
  volume levels' = volume levels - traded trs.
Proof.
  intros E.
  cut (∃ x y z, match_levels inc levels prices = Ok (x, y, z) ∧
         (positive_levels levels → volume y = volume levels - traded z)).
  { intros (x & y & z & E' & H). rewrite E in E'. by simplify_eq. }
  clear. revert prices inc levels. apply match_levels_rect.
  - intros inc levels _. simpl. lia.
  - intros inc levels p ps _ _. simpl. lia.
  - intros inc levels p ps inc1 l1 trs inc2 levels3 trs' _ _ E _ IH Hpos.
    rewrite IH by (by apply positive_level_step).
    rewrite volume_level_step, traded_app.
    rewrite sum_quantity_compact
      by (eapply match_orders_nonneg; [done|by apply positive_default]).
    rewrite (match_orders_resting _ _ _ _ _ E). unfold level_quantity. lia.
Qed.

(** X18: nothing is lost between the trades and the summary.  In a book
    reached by orders with positive price and quantity, a call on such an
    order lowers the total quantity that the summary shows on the opposite
    side by exactly the quantity of its trades, and raises the total on
    the order's own side by exactly the quantity the order is left with. *)
Theorem summary_accounting orders now o :
  Forall (λ x, valid x.2) orders →
  valid o →
  ∃ ob ob' o' trs,
    process_orders OrderBook.init orders = Ok ob ∧
    process_order ob now o = Ok (ob', o') ∧
    OrderBook.trades ob' = OrderBook.trades ob ++ trs ∧
    let ty := Order.type o in
    let s := (book_summary ob).2 in
    let s' := (book_summary ob').2 in
    total (side_quantity (other ty) s') =
      total (side_quantity (other ty) s) - traded trs ∧
    total (side_quantity ty s') =
      total (side_quantity ty s) + Order.quantity o'.
Proof.
  intros Hv [_ Hq].
  destruct (book_inv_reached orders Hv) as (ob & E & Hinv).
  apply (book_inv_sides (Order.type o)) in Hinv as (_ & Hopp & _).
  destruct (process_order_trades ob now o) as (ob' & o' & trs & E' & Ht & Hm & Hn).
  exists ob, ob', o', trs. split_and!; [done..|]. cbv zeta.
  rewrite !side_quantity_volume.
  replace (own_side (other (Order.type o)) ob')
    with (opposite_side (Order.type o) ob') by (by destruct (Order.type o)).
  replace (own_side (other (Order.type o)) ob)
    with (opposite_side (Order.type o) ob) by (by destruct (Order.type o)).
  destruct (decide (marketable ob o)) as [H|H].
  - destruct (Hm H) as (El & _ & Hown & _). split.
    + apply (match_levels_volume _ _ _ _ _ _ El). by apply hygienic_positive.
    + rewrite Hown.
      destruct (match_levels_positive _ _ _ _ _ _ El) as (Hq' & _);
        [simpl; lia|by apply hygienic_positive|].
      destruct (0 <? Order.quantity o') eqn:Hlt.
      * by rewrite volume_append.
      * apply Z.ltb_ge in Hlt. lia.
  - destruct (Hn H) as (-> & -> & ->).
    change (Order.type o) with (Order.type (stamp ob now o)).
    rewrite own_side_rest_order, opposite_side_rest_order.
    rewrite own_side_advance, opposite_side_advance. split.
    + simpl. lia.
    + by rewrite volume_append.
Qed.

Lemma summary_accounting_witness :
  Forall (λ x, valid x.2) demo_orders ∧
  valid demo_sell ∧
  ∃ ob ob' o' trs,
    process_orders OrderBook.init demo_orders = Ok ob ∧
    process_order ob 9 demo_sell = Ok (ob', o') ∧
    OrderBook.trades ob' = OrderBook.trades ob ++ trs ∧
    total (Summary.bid_quantity (book_summary ob').2) =
      total (Summary.bid_quantity (book_summary ob).2) - traded trs ∧
    total (Summary.offer_quantity (book_summary ob').2) =
      total (Summary.offer_quantity (book_summary ob).2) + Order.quantity o'.
Proof.
  split; [by_evaluation|]. split; [by_evaluation|].
  apply (summary_accounting demo_orders 9 demo_sell); by_evaluation.
Defined.

(** ** The display of the book *)

(** A line that [show_book] prints: a fixed text, or the line of a price
    level, ['({0}) Price={1}, Total units={2}'] with the three values it is
    formatted from. *)
Inductive line :=
| Text (s : string)
| Level (rank : Z) (price : Z) (units : Z).

(** The line of the level of index [i]: the reads [prices[i]] and
    [quantities[i]] raise [IndexError] out of range, here [None]. *)
Definition level_line (prices quantities : list Z) (i : nat) : option line :=
  p ← prices !! i;
  q ← quantities !! i;
  Some (Level (Z.of_nat i + 1) p q).

(** [OrderBook.show_book]: the book and the summary after the call and the
    lines printed, or [None] for an [IndexError]. *)
Definition show_book (ob : OrderBook.t)
  : option (OrderBook.t * Summary.t * list line) :=
  let '(ob1, s) := book_summary ob in
  let offer_prices := Summary.offer_prices s in
  let bid_prices := Summary.bid_prices s in
  sell ← mapM (level_line offer_prices (Summary.offer_quantity s))
              (reverse (seq 0 (length offer_prices)));
  buy ← mapM (level_line bid_prices (Summary.bid_quantity s))
             (seq 0 (length bid_prices));
  Some (ob1, s,
        [Text "Sell side:"] ++
        (if bool_decide (length offer_prices = 0%nat) then [Text "EMPTY"] else []) ++
        sell ++
        [Text "Buy side:"] ++
        (if bool_decide (length bid_prices = 0%nat) then [Text "EMPTY"] else []) ++
        buy ++
        [Text ""]).

(** The lines of the levels of one side, best price first. *)
Definition side_lines (levels : levels_t) (prices : list Z) : list line :=
  imap (λ i p, Level (Z.of_nat i + 1) p (level_quantity levels p)) prices.

Lemma level_lines_spec (g : Z → Z) prices idx :
  Forall (λ i, (i < length prices)%nat) idx →
  mapM (level_line prices (g <$> prices)) idx =
    Some ((λ i, let p := default 0 (prices !! i) in Level (Z.of_nat i + 1) p (g p)) <$> idx).
Proof.
  intros H. apply mapM_Some_2, Forall2_fmap_r, Forall_Forall2_diag.
  eapply Forall_impl; [exact H|]. intros i Hi. simpl in Hi.
  destruct (lookup_lt_is_Some_2 prices i Hi) as [p Hp].
  unfold compose, level_line. rewrite list_lookup_fmap, Hp. done.
Qed.

Lemma level_lines_seq (g : Z → Z) prices :
  (λ i, let p := default 0 (prices !! i) in Level (Z.of_nat i + 1) p (g p))
    <$> seq 0 (length prices)
  = imap (λ i p, Level (Z.of_nat i + 1) p (g p)) prices.
Proof.
  apply list_eq. intros i. rewrite list_lookup_fmap, list_lookup_imap.
  destruct (prices !! i) as [p|] eqn:E.
  - rewrite lookup_seq_lt by (by eapply lookup_lt_Some). simpl. by rewrite E.
  - rewrite lookup_seq_ge; [done|]. by apply lookup_ge_None.
Qed.

Lemma sorted_keys_nil (m : levels_t) r : sorted (keys m) r = [] ↔ m = ∅.
Proof.
  rewrite <- keys_nil.
  assert (P : sorted (keys m) r ≡ₚ keys m).
  { unfold sorted. destruct r; apply merge_sort_Permutation. }
  split; intros H.
  - rewrite H in P. symmetry in P. by apply Permutation_nil_r in P.
  - rewrite H. by destruct r.
Qed.

Lemma show_book_eq ob :
  let s := (book_summary ob).2 in
  show_book ob =
    Some (ob, s,
          [Text "Sell side:"] ++
          (if truthy (OrderBook.offers ob)
           then reverse (side_lines (OrderBook.offers ob) (Summary.offer_prices s))
           else [Text "EMPTY"]) ++
          [Text "Buy side:"] ++
          (if truthy (OrderBook.bids ob)
           then side_lines (OrderBook.bids ob) (Summary.bid_prices s)
           else [Text "EMPTY"]) ++
          [Text ""]).
Proof.
  assert (Hlen : ∀ (m : levels_t) r,
            bool_decide (length (sorted (keys m) r) = 0%nat) = negb (truthy m)).
  { intros m r. unfold truthy. rewrite negb_involutive.
    apply bool_decide_ext. rewrite length_zero_iff_nil. apply sorted_keys_nil. }
  unfold show_book. rewrite book_summary_eq. cbv zeta.
  cbn [snd Summary.bid_prices Summary.offer_prices
       Summary.bid_quantity Summary.offer_quantity].
  rewrite !level_lines_spec.
  2,3: apply Forall_forall; intros i Hi; rewrite ?elem_of_reverse in Hi;
    by apply elem_of_seq in Hi as [_ ?].
  cbn [mbind option_bind].
  rewrite fmap_reverse, !level_lines_seq, !Hlen. unfold side_lines.
  assert (Hnil : ∀ (m : levels_t) r, truthy m = false → sorted (keys m) r = []).
  { intros m r Hm. apply sorted_keys_nil.
    apply not_true_iff_false in Hm. rewrite truthy_true in Hm. by apply dec_stable in Hm. }
  do 3 f_equal.
  destruct (truthy (OrderBook.offers ob)) eqn:Ho,
           (truthy (OrderBook.bids ob)) eqn:Hb;
    rewrite ?(Hnil _ false Ho), ?(Hnil _ true Hb); done.
Qed.

(** X19: [show_book] never raises (the quantity lists are as long as the
    price lists, so every read is in range) and leaves the book as it is.
    It prints the header of the sell side, then ["EMPTY"] or the offer
    levels from the worst price down to the best, each with its rank (1 is
    the best), its price and the quantity resting there; then the same for
    the buy side from the best price down; then an empty line. *)
Theorem show_book_prints ob :
  let s := (book_summary ob).2 in
  show_book ob =
    Some (ob, s,
          [Text "Sell side:"] ++
          (if truthy (OrderBook.offers ob)
           then reverse (side_lines (OrderBook.offers ob) (Summary.offer_prices s))
           else [Text "EMPTY"]) ++
          [Text "Buy side:"] ++
          (if truthy (OrderBook.bids ob)
           then side_lines (OrderBook.bids ob) (Summary.bid_prices s)
           else [Text "EMPTY"]) ++
          [Text ""]).
Proof. apply show_book_eq. Qed.

(** The price that a line shows. *)
Definition line_price (ln : line) : option Z :=
  match ln with
  | Level _ p _ => Some p
  | Text _ => None
  end.

Lemma omap_level_lines (f : nat → Z → line) prices :
  (∀ i p, line_price (f i p) = Some p) → omap line_price (imap f prices) = prices.
Proof.
  revert f. induction prices as [|p ps IH]; intros f Hf; [done|].
  rewrite imap_cons. simpl. rewrite Hf. f_equal. apply IH. intros i q. apply Hf.
Qed.

Lemma omap_reverse {A B} (f : A → option B) l :
  omap f (reverse l) = reverse (omap f l).
Proof.
  induction l as [|x l IH]; [done|].
  rewrite reverse_cons, omap_app, IH. simpl.
  destruct (f x); simpl; [by rewrite reverse_cons|by rewrite app_nil_r].
Qed.

(** X20: after any sequence of orders with positive price and quantity, the
    display is a price ladder: read from top to bottom, the prices of the
    level lines are the offer prices from the highest down followed by the
    bid prices from the highest down, strictly decreasing throughout. *)
Theorem show_book_ladder orders :
  Forall (λ x, valid x.2) orders →
  ∃ ob out,
    process_orders OrderBook.init orders = Ok ob ∧
    show_book ob = Some (ob, (book_summary ob).2, out) ∧
    omap line_price out =
      reverse (Summary.offer_prices (book_summary ob).2) ++
      Summary.bid_prices (book_summary ob).2 ∧
    StronglySorted (flip Z.lt) (omap line_price out).
Proof.
  intros Hv. destruct (book_inv_reached orders Hv) as (ob & E & _ & _ & Hu).
  pose proof (show_book_eq ob) as Hshow. cbv zeta in Hshow.
  eexists ob, _. split; [done|]. split; [exact Hshow|].
  assert (Hprices :
    omap line_price
      ([Text "Sell side:"] ++
       (if truthy (OrderBook.offers ob)
        then reverse (side_lines (OrderBook.offers ob)
                        (Summary.offer_prices (book_summary ob).2))
        else [Text "EMPTY"]) ++
       [Text "Buy side:"] ++
       (if truthy (OrderBook.bids ob)
        then side_lines (OrderBook.bids ob) (Summary.bid_prices (book_summary ob).2)
        else [Text "EMPTY"]) ++
       [Text ""]) =
    reverse (Summary.offer_prices (book_summary ob).2) ++
    Summary.bid_prices (book_summary ob).2).
  { rewrite book_summary_eq.
    cbn [snd Summary.bid_prices Summary.offer_prices].
    assert (Hnil : ∀ (m : levels_t) r, truthy m = false → sorted (keys m) r = []).
    { intros m r Hm. apply sorted_keys_nil.
      apply not_true_iff_false in Hm. rewrite truthy_true in Hm.
      by apply dec_stable in Hm. }
    rewrite !omap_app.
    destruct (truthy (OrderBook.offers ob)) eqn:Ho,
             (truthy (OrderBook.bids ob)) eqn:Hb;
      rewrite ?(Hnil _ false Ho), ?(Hnil _ true Hb);
      unfold side_lines; rewrite ?omap_reverse, ?omap_level_lines by done;
      simpl; by rewrite ?app_nil_r. }
  split; [exact Hprices|]. rewrite Hprices. rewrite book_summary_eq.
  cbn [snd Summary.bid_prices Summary.offer_prices].
  destruct (sorted_keys (OrderBook.bids ob) true) as (_ & Hb & Hbin).
  destruct (sorted_keys (OrderBook.offers ob) false) as (_ & Ho & Hoin).
  cbv zeta in *.
  assert (Transitive (flip Z.lt)) by (intros x y z; unfold flip; lia).
  apply StronglySorted_app_2.
  - intros po pb Hpo Hpb. rewrite elem_of_reverse in Hpo.
    unfold flip. apply Hu; [by apply Hbin|by apply Hoin].
  - apply Sorted_StronglySorted; [done|].
    apply Sorted_reverse. by apply StronglySorted_Sorted.
  - done.
Qed.

Lemma show_book_ladder_witness :
  Forall (λ x, valid x.2) demo_orders ∧
  ∃ ob out,
    process_orders OrderBook.init demo_orders = Ok ob ∧
    show_book ob = Some (ob, (book_summary ob).2, out) ∧
    omap line_price out =
      reverse (Summary.offer_prices (book_summary ob).2) ++
      Summary.bid_prices (book_summary ob).2 ∧
    StronglySorted (flip Z.lt) (omap line_price out).
Proof.
  split; [by_evaluation|].
  apply (show_book_ladder demo_orders). by_evaluation.
Defined.

(** The display of the demonstration of the source file, before its last
    order. *)
Example show_book_demo :
  ∃ ob out,
    process_orders OrderBook.init demo_orders = Ok ob ∧
    show_book ob = Some (ob, (book_summary ob).2, out) ∧
    out = [Text "Sell side:";
           Level 2 1355 5; Level 1 1331 10;
           Text "Buy side:";
           Level 1 1231 20; Level 2 1225 45; Level 3 1223 15;
           Text ""].
Proof.
  eexists _, _. split; [vm_compute; reflexivity|].
  split; vm_compute; reflexivity.
Qed.

(** ** Every unit is accounted for *)

(** The quantity submitted by a sequence of orders. *)
Definition submitted (orders : list (Z * Order.t)) : Z :=
  total ((λ x, Order.quantity x.2) <$> orders).

Lemma total_app l l' : total (l ++ l') = total l + total l'.
Proof. induction l as [|x l IH]; simpl; lia. Qed.

Lemma volume_step ob now o ob' o' trs :
  hygienic (opposite_side (Order.type o) ob) →
  0 < Order.quantity o →
  process_order ob now o = Ok (ob', o') →
  OrderBook.trades ob' = OrderBook.trades ob ++ trs →
  volume (OrderBook.bids ob') + volume (OrderBook.offers ob') =
    volume (OrderBook.bids ob) + volume (OrderBook.offers ob)
    + Order.quantity o - 2 * traded trs.
Proof.
  intros Hopp Hq E Ht.
  destruct (process_order_trades ob now o) as (ob2 & o2 & trs2 & E' & Ht2 & Hm & Hn).
  rewrite E in E'. simplify_eq. rewrite Ht in Ht2. apply app_inv_head in Ht2 as <-.
  assert (Hsides : ∀ b, volume (OrderBook.bids b) + volume (OrderBook.offers b) =
            volume (own_side (Order.type o) b) + volume (opposite_side (Order.type o) b)).
  { intros b. destruct (Order.type o); simpl; lia. }
  rewrite !Hsides.
  destruct (decide (marketable ob o)) as [H|H].
  - destruct (Hm H) as (El & (_ & Hcons & _) & Hown & _).
    rewrite (match_levels_volume _ _ _ _ _ _ El) by (by apply hygienic_positive).
    destruct (match_levels_positive _ _ _ _ _ _ El) as (Hq' & _);
      [simpl; lia|by apply hygienic_positive|].
    simpl in Hcons. rewrite Hown.
    destruct (0 <? Order.quantity o2) eqn:Hlt.
    + rewrite volume_append. lia.
    + apply Z.ltb_ge in Hlt. lia.
  - destruct (Hn H) as (-> & -> & ->).
    change (Order.type o) with (Order.type (stamp ob now o)).
    rewrite own_side_rest_order, opposite_side_rest_order.
    rewrite own_side_advance, opposite_side_advance, volume_append. simpl. lia.
Qed.

Lemma conservation_reached orders :
  Forall (λ x, valid x.2) orders →
  ∃ ob, process_orders OrderBook.init orders = Ok ob ∧ book_inv ob ∧
        volume (OrderBook.bids ob) + volume (OrderBook.offers ob)
        + 2 * traded (OrderBook.trades ob) = submitted orders.
Proof.
  induction orders as [|[now o] orders IH] using rev_ind; intros Hv.
  - exists OrderBook.init. split_and!; [done|apply book_inv_init|done].
  - apply Forall_app in Hv as [Hv Ho]. inv Ho.
    destruct (IH Hv) as (ob & E & Hinv & Hlaw).
    destruct (process_order_trades ob now o) as (ob' & o' & trs & E' & Ht & _).
    exists ob'. split_and!.
    + by eapply process_orders_app.
    + by eapply book_inv_step.
    + match goal with H : valid _ |- _ => destruct H as [_ Hq] end. simpl in Hq.
      pose proof Hinv as Hinv'.
      apply (book_inv_sides (Order.type o)) in Hinv' as (_ & Hopp & _).
      rewrite (volume_step _ _ _ _ _ _ Hopp Hq E' Ht), Ht, traded_app.
      unfold submitted in *. rewrite fmap_app, total_app. simpl. lia.
Qed.

(** X21: every unit submitted is resting or executed.  After any sequence of
    orders with positive price and quantity, the quantities that the
    summary shows on the two sides, plus twice the quantity of all the
    trades put (a trade takes its quantity from an order of each side),
    add up to the quantity submitted. *)
Theorem book_conserves_quantity orders :
  Forall (λ x, valid x.2) orders →
  ∃ ob,
    process_orders OrderBook.init orders = Ok ob ∧
    let s := (book_summary ob).2 in
    total (Summary.bid_quantity s) + total (Summary.offer_quantity s)
    + 2 * traded (OrderBook.trades ob) = submitted orders.
Proof.
  intros Hv. destruct (conservation_reached orders Hv) as (ob & E & _ & Hlaw).
  exists ob. split; [done|]. cbv zeta.
  pose proof (side_quantity_volume BUY ob) as Hb.
  pose proof (side_quantity_volume SELL ob) as Ho.
  cbn [side_quantity own_side] in Hb, Ho. by rewrite Hb, Ho.
Qed.

Lemma book_conserves_quantity_witness :
  Forall (λ x, valid x.2) (demo_orders ++ [(9, demo_sell)]) ∧
  ∃ ob,
    process_orders OrderBook.init (demo_orders ++ [(9, demo_sell)]) = Ok ob ∧
    total (Summary.bid_quantity (book_summary ob).2)
    + total (Summary.offer_quantity (book_summary ob).2)
    + 2 * traded (OrderBook.trades ob) = submitted (demo_orders ++ [(9, demo_sell)]).
Proof.
  split; [by_evaluation|].
  apply (book_conserves_quantity (demo_orders ++ [(9, demo_sell)])). by_evaluation.
Defined.
